(** * Tic-Tac-Toe: rules engine, minimax move selector and game controller

    A shallow embedding of the React game component (the variant with the
    AI opponent) and of the player-vs-player variant in [Game.jsx].

    - A cell is ['X'], ['O'] or [null]; the board is a JavaScript array,
      here a [list] read with stdpp's lookup.
    - The component's [useState] cells become the fields of one record and
      every handler becomes a function from state to state.
    - [Math.random] is an explicit oracle.
    - The recursion of [minimax] is not structural; it is driven by fuel and
      shown to return whenever the fuel exceeds the number of empty cells. *)

From Stdlib Require Import ZArith Lia.
From stdpp Require Import base decidable option list relations strings sorting.

Set Default Proof Using "Type".

(** ** Data model *)

Inductive Mark := X | O.

#[global] Instance Mark_eq_dec : EqDecision Mark.
Proof. solve_decision. Defined.

(** A cell value: [None] is JavaScript's [null].  Reading past the end of an
    array yields [undefined]; every test the program applies to a cell
    ([x == null], [x != null], truthiness, [===] against a mark) treats
    [undefined] like [null], so both are [None]. *)
Abbreviation Cell := (option Mark).
Abbreviation Squares := (list Cell).

(** [squares[i]] *)
Definition sq_get (squares : Squares) (i : nat) : Cell :=
  match squares !! i with
  | Some c => c
  | None => None
  end.

(** [a[i] = v] on a copy: in range the slot is replaced; past the end a
    JavaScript array grows, the skipped slots reading back as [undefined].
    Every write of the program that the proofs below follow is in range:
    the search writes at indices taken from [getAvailableMoves], and the
    controller at an index below nine on a board of nine cells. *)
Definition array_set (a : Squares) (i : nat) (v : Cell) : Squares :=
  if decide (i < length a) then <[i:=v]> a
  else a ++ replicate (i - length a) None ++ [v].

(** [Array(9).fill(null)] *)
Definition empty_board : Squares := replicate 9 None.

(** A number as the search uses it: [-Infinity], an integer, [Infinity]. *)
Inductive Score := NegInfinity | Fin (z : Z) | PosInfinity.

#[global] Instance Score_eq_dec : EqDecision Score.
Proof. solve_decision. Defined.

(** [a < b] *)
Definition score_lt (a b : Score) : bool :=
  match a, b with
  | NegInfinity, NegInfinity => false
  | NegInfinity, _ => true
  | Fin _, NegInfinity => false
  | Fin x, Fin y => bool_decide (x < y)%Z
  | Fin _, PosInfinity => true
  | PosInfinity, _ => false
  end.

(** What a move-valued expression can evaluate to: [undefined] (a missing
    property, an out-of-range element), [null] (the initial [bestMove]) or
    an index. *)
Inductive MoveRef := Undefined | Null | Index (i : nat).

#[global] Instance MoveRef_eq_dec : EqDecision MoveRef.
Proof. solve_decision. Defined.

(** [arr[i]] for an array of indices *)
Definition index_at (arr : list nat) (i : nat) : MoveRef :=
  match arr !! i with
  | Some m => Index m
  | None => Undefined
  end.

(** ** Rules engine *)

Abbreviation Line := (nat * nat * nat)%type.

Definition lines : list Line :=
  [ (0, 1, 2); (3, 4, 5); (6, 7, 8);
    (0, 3, 6); (1, 4, 7); (2, 5, 8);
    (0, 4, 8); (2, 4, 6) ].

Record WinResult := { winner : Cell; line : option Line }.

(** The test of the loop body:
    [squares[a] && squares[a] === squares[b] && squares[a] === squares[c]] *)
Definition line_matches (squares : Squares) (l : Line) : bool :=
  let '(a, b, c) := l in
  bool_decide (sq_get squares a ≠ None)
  && bool_decide (sq_get squares a = sq_get squares b)
  && bool_decide (sq_get squares a = sq_get squares c).

(** The [for (let line of lines)] loop with its early [return]. *)
Fixpoint scan_lines (squares : Squares) (ls : list Line) : WinResult :=
  match ls with
  | [] => {| winner := None; line := None |}
  | l :: rest =>
      if line_matches squares l
      then {| winner := sq_get squares (l.1.1); line := Some l |}
      else scan_lines squares rest
  end.

Definition calculateWinner (squares : Squares) : WinResult :=
  scan_lines squares lines.

(** [squares.map((val, idx) => val == null ? idx : null)
            .filter(idx => idx !== null)] *)
Definition getAvailableMoves (squares : Squares) : list nat :=
  omap id (imap (λ idx val, if decide (val = None) then Some idx else None)
                squares).

(** ** AI move selector *)

Record SearchResult := { score : Score; move : MoveRef }.

Section minimax.
(** [minimax] is a closure over the two marks. *)
Variables aiMark playerMark : Mark.

(** One round of the [for (let move of moves)] loop, given the result of
    the recursive call: the pair is [(bestScore, bestMove)]. *)
Definition keep_best (isMaximizing : bool) (best : Score * MoveRef)
    (mv : nat) (r : SearchResult) : Score * MoveRef :=
  if isMaximizing then
    if score_lt best.1 (score r) then (score r, Index mv) else best
  else
    if score_lt (score r) best.1 then (score r, Index mv) else best.

(** The whole loop; [child mv] is the recursive call on the board with
    [mv] played.  [None] means that a recursive call ran out of fuel. *)
Definition search_loop (isMaximizing : bool)
    (child : nat → option SearchResult) (moves : list nat)
    (init : Score * MoveRef) : option (Score * MoveRef) :=
  foldl (λ acc mv,
           match acc with
           | None => None
           | Some best =>
               match child mv with
               | None => None
               | Some r => Some (keep_best isMaximizing best mv r)
               end
           end)
        (Some init) moves.

Fixpoint minimax (fuel : nat) (board : Squares) (isMaximizing : bool)
    : option SearchResult :=
  match fuel with
  | 0 => None
  | S fuel' =>
      let result := calculateWinner board in
      if decide (winner result = Some aiMark)
      then Some {| score := Fin 1; move := Undefined |}
      else if decide (winner result = Some playerMark)
      then Some {| score := Fin (-1); move := Undefined |}
      else if forallb (λ x, bool_decide (x ≠ None)) board
      then Some {| score := Fin 0; move := Undefined |}
      else
        let moves := getAvailableMoves board in
        let bestScore := if isMaximizing then NegInfinity else PosInfinity in
        match
          search_loop isMaximizing
            (λ mv,
               let nextBoard :=
                 array_set board mv
                   (Some (if isMaximizing then aiMark else playerMark)) in
               minimax fuel' nextBoard (negb isMaximizing))
            moves (bestScore, Null)
        with
        | None => None
        | Some best => Some {| score := best.1; move := best.2 |}
        end
  end.

(** [getBestAIMove(squares, aiMark, playerMark)].  [randomIndex n] stands
    for [Math.floor(Math.random() * n)].  Every search path fills one more
    cell, so one unit of fuel per cell and one for the leaf suffice (see
    [minimax_returns]). *)
Definition getBestAIMove (randomIndex : nat → nat) (squares : Squares)
    : option MoveRef :=
  let emptyCount := length (getAvailableMoves squares) in
  if decide (7 ≤ emptyCount) then
    if decide (sq_get squares 4 = None) then Some (Index 4)
    else
      let corners := filter (λ i, sq_get squares i = None) [0; 2; 6; 8] in
      if decide (0 < length corners)
      then Some (index_at corners (randomIndex (length corners)))
      else
        let sides := filter (λ i, sq_get squares i = None) [1; 3; 5; 7] in
        if decide (0 < length sides)
        then Some (index_at sides (randomIndex (length sides)))
        else Some (index_at (getAvailableMoves squares) 0)
  else
    move <$> minimax (S (length squares)) squares true.
End minimax.

(** A board on which [minimax] returns without searching. *)
Definition terminal (aiMark playerMark : Mark) (board : Squares) : Prop :=
  winner (calculateWinner board) = Some aiMark
  ∨ winner (calculateWinner board) = Some playerMark
  ∨ getAvailableMoves board = [].

(** [Math.floor(Math.random() * n)] lies in [0, n) for [n > 0]. *)
Definition random_ok (randomIndex : nat → nat) : Prop :=
  ∀ n, 0 < n → randomIndex n < n.


(** ** Game controller (the component with the AI opponent) *)

Inductive Mode := pvp | ai.

#[global] Instance Mode_eq_dec : EqDecision Mode.
Proof. solve_decision. Defined.

(** The five [useState] cells of the component. *)
Record Game := {
  squares : Squares;
  xIsNext : bool;
  mode : Mode;
  aiMark : Mark;
  isAITurning : bool;
}.

(** The state of the first render. *)
Definition initial : Game :=
  {| squares := empty_board; xIsNext := true; mode := pvp;
     aiMark := O; isAITurning := false |}.

(** [squares.filter(Boolean).length] *)
Definition moveCount (sq : Squares) : nat :=
  length (filter (λ c : Cell, c ≠ None) sq).

(** [!winner && moveCount === 9] *)
Definition isDraw (sq : Squares) : bool :=
  bool_decide (winner (calculateWinner sq) = None)
  && bool_decide (moveCount sq = 9).

(** The three branches of the status bar. *)
Inductive Status := Won (m : Mark) | Drawn | Ongoing.

Definition status (sq : Squares) : Status :=
  match winner (calculateWinner sq) with
  | Some m => Won m
  | None => if isDraw sq then Drawn else Ongoing
  end.

Definition canPlayerMove (g : Game) (idx : nat) : bool :=
  if bool_decide (winner (calculateWinner (squares g)) ≠ None)
     || isDraw (squares g)
  then false
  else if bool_decide (mode g = ai) && isAITurning g then false
  else if bool_decide (mode g = ai) && negb (xIsNext g) then false
  else bool_decide (sq_get (squares g) idx = None).

Definition handleSquareClick (g : Game) (idx : nat) : Game :=
  if negb (canPlayerMove g idx) then g
  else
    {| squares := array_set (squares g) idx
                    (Some (if xIsNext g then X else O));
       xIsNext := negb (xIsNext g);
       mode := mode g; aiMark := aiMark g; isAITurning := isAITurning g |}.

Definition handleRestart (g : Game) : Game :=
  {| squares := empty_board; xIsNext := true;
     mode := mode g; aiMark := aiMark g; isAITurning := false |}.

Definition handleModeChange (g : Game) (val : Mode) : Game :=
  {| squares := empty_board; xIsNext := true;
     mode := val; aiMark := aiMark g; isAITurning := false |}.

(** The condition under which the AI effect arms its timer. *)
Definition aiEffectGuard (g : Game) : bool :=
  bool_decide (mode g = ai)
  && bool_decide (winner (calculateWinner (squares g)) = None)
  && negb (isDraw (squares g))
  && negb (xIsNext g).

(** The effect body up to [setTimeout]: [setIsAITurning(true)].  The timer
    is cleared by the effect's cleanup whenever [squares], [xIsNext] or
    [mode] change, and those handlers also reset the flag, so the flag is
    set exactly while a timer is pending. *)
Definition aiEffectStart (g : Game) : Game :=
  if aiEffectGuard g then
    {| squares := squares g; xIsNext := xIsNext g; mode := mode g;
       aiMark := aiMark g; isAITurning := true |}
  else g.

Definition opponent (m : Mark) : Mark :=
  match m with X => O | O => X end.

(** The timer callback.  With [move === null] the guard
    [move !== undefined && squares[move] == null] passes ([squares[null]]
    is [undefined]) and [next[null] = 'O'] adds a property named ["null"],
    leaving the nine elements as they are. *)
Definition aiTimeout (randomIndex : nat → nat) (g : Game) : option Game :=
  match getBestAIMove (aiMark g) (opponent (aiMark g)) randomIndex (squares g)
  with
  | None => None
  | Some mv =>
      let idle :=
        {| squares := squares g; xIsNext := xIsNext g; mode := mode g;
           aiMark := aiMark g; isAITurning := false |} in
      Some
        match mv with
        | Undefined => idle
        | Null =>
            {| squares := squares g; xIsNext := true; mode := mode g;
               aiMark := aiMark g; isAITurning := false |}
        | Index i =>
            if decide (sq_get (squares g) i = None) then
              {| squares := array_set (squares g) i (Some O);
                 xIsNext := true; mode := mode g;
                 aiMark := aiMark g; isAITurning := false |}
            else idle
        end
  end.

(** One event of the running component.  [Board] renders the squares
    [row * 3 + col] for [row, col] in [0..2], so clicks carry an index
    below 9. *)
Inductive step : Game → Game → Prop :=
  | step_click g idx :
      idx < 9 → step g (handleSquareClick g idx)
  | step_restart g :
      step g (handleRestart g)
  | step_mode g val :
      step g (handleModeChange g val)
  | step_ai_start g :
      aiEffectGuard g = true → step g (aiEffectStart g)
  | step_ai_timeout g g' randomIndex :
      isAITurning g = true →
      random_ok randomIndex →
      aiTimeout randomIndex g = Some g' →
      step g g'.

Definition reachable (g : Game) : Prop := rtc step initial g.

(** ** Game controller of [Game.jsx] (two human players only) *)

Module Simple.
Record Game := { squares : Squares; xIsNext : bool }.

Definition handleSquareClick (g : Game) (idx : nat) : Game :=
  if bool_decide (sq_get (squares g) idx ≠ None)
     || bool_decide (winner (calculateWinner (squares g)) ≠ None)
  then g
  else
    {| squares := array_set (squares g) idx
                    (Some (if xIsNext g then X else O));
       xIsNext := negb (xIsNext g) |}.

Definition handleRestart (g : Game) : Game :=
  {| squares := empty_board; xIsNext := true |}.
End Simple.

(** ** Vocabulary of the properties *)

Definition rows : list Line := [ (0, 1, 2); (3, 4, 5); (6, 7, 8) ].
Definition columns : list Line := [ (0, 3, 6); (1, 4, 7); (2, 5, 8) ].
Definition diagonals : list Line := [ (0, 4, 8); (2, 4, 6) ].

(** The three cells of [l] all hold the mark [m]. *)
Definition three_in_a_row (sq : Squares) (l : Line) (m : Mark) : Prop :=
  sq_get sq l.1.1 = Some m ∧ sq_get sq l.1.2 = Some m ∧ sq_get sq l.2 = Some m.

(** The number of cells holding [m]. *)
Definition count_mark (m : Mark) (sq : Squares) : nat :=
  length (filter (λ c : Cell, c = Some m) sq).

(** How a call of [getBestAIMove] ends: by returning a value or by throwing.
    The body has no [throw] and only reads arrays and calls [map], [filter],
    [every], [slice] and [Math] functions on them, none of which throws on an
    array of cells; so every call that ends returns. *)
Inductive ErrorKind := NoLegalMove.
Inductive Completion := Returns (mv : MoveRef) | Throws (e : ErrorKind).

Definition getBestAIMove_call (aiMark playerMark : Mark)
    (randomIndex : nat → nat) (squares : Squares) : option Completion :=
  Returns <$> getBestAIMove aiMark playerMark randomIndex squares.

(** The values of [randomIndex] that matter on a board: the opening policy
    indexes a list of at most four entries, the search draws no number. *)
Definition oracle_range (sq : Squares) : list nat :=
  if decide (7 ≤ length (getAvailableMoves sq)) then seq 0 4 else [0].

(** The game tree of the AI mode, explored with every click of the human
    and every outcome of the AI's random choice: no position in it is won
    by X, and every AI move is an index of an empty cell. *)
Fixpoint never_loses (fuel : nat) (sq : Squares) (xTurn : bool) : bool :=
  match fuel with
  | 0 => false
  | S fuel' =>
      bool_decide (winner (calculateWinner sq) ≠ Some X)
      && (if bool_decide (winner (calculateWinner sq) ≠ None) || isDraw sq
          then true
          else if xTurn then
            forallb (λ idx, never_loses fuel' (array_set sq idx (Some X)) false)
                    (getAvailableMoves sq)
          else
            forallb (λ k,
                       match getBestAIMove O X (λ _, k) sq with
                       | Some (Index i) =>
                           bool_decide (sq_get sq i = None)
                           && never_loses fuel' (array_set sq i (Some O)) true
                       | _ => false
                       end)
                    (oracle_range sq))
  end.

(** What every reachable state satisfies: nine cells, the AI plays O, a
    pending AI move implies that the effect's guard still holds, and the
    marks alternate starting with X. *)
Definition well_formed (g : Game) : Prop :=
  length (squares g) = 9
  ∧ aiMark g = O
  ∧ (isAITurning g = true → aiEffectGuard g = true)
  ∧ count_mark X (squares g)
    = count_mark O (squares g) + (if xIsNext g then 0 else 1).

(** In AI mode the position lies in the explored game tree. *)
Definition ai_safe (g : Game) : Prop :=
  mode g = ai → ∃ fuel, never_loses fuel (squares g) (xIsNext g) = true.

(** ** The rest of the component and its collaborators *)

(** The status bar of the component: who wins, the draw text, or whose
    turn it is.  A winner equal to the AI's mark is announced as ["AI"] in
    AI mode. *)
Inductive StatusBar :=
  | WinsText (who : string)
  | DrawText
  | TurnText (who : string).

Definition mark_name (m : Mark) : string :=
  match m with X => "X" | O => "O" end.

Definition statusBar (g : Game) : StatusBar :=
  match winner (calculateWinner (squares g)) with
  | Some w =>
      WinsText (if bool_decide (w = aiMark g) && bool_decide (mode g = ai)
                then "AI" else mark_name w)
  | None =>
      if isDraw (squares g) then DrawText
      else
        TurnText (if bool_decide (mode g = ai)
                  then (if xIsNext g then "Player (X)" else "AI (O)")
                  else (if xIsNext g then "X" else "O"))
  end.

(** [disabled={moveCount === 0 && mode === 'pvp'}] of the restart button *)
Definition restartDisabled (g : Game) : bool :=
  bool_decide (moveCount (squares g) = 0) && bool_decide (mode g = pvp).

(** [Board]: the indices it renders,
    [[0, 1, 2].map(row => [0, 1, 2].map(col => renderSquare(row * 3 + col)))],
    in rendering order. *)
Definition board_indices : list nat :=
  concat ((λ row, (λ col, row * 3 + col) <$> [0; 1; 2]) <$> [0; 1; 2]).

(** [Board.renderSquare]: [winningLine && winningLine.includes(idx)] *)
Definition highlight (winningLine : option Line) (idx : nat) : bool :=
  match winningLine with
  | None => false
  | Some (a, b, c) => bool_decide (idx ∈ [a; b; c])
  end.

(** A click on square [idx] as it travels through the components:
    [Square] passes it on only for an empty cell
    ([onClick={value == null ? onClick : undefined}]), [Board] adds the
    index, and the component answers with
    [canPlayerMove(idx) && handleSquareClick(idx)]. *)
Definition ui_click (g : Game) (idx : nat) : Game :=
  if decide (sq_get (squares g) idx = None) then
    if canPlayerMove g idx then handleSquareClick g idx else g
  else g.

(** The same click through the [Square] that passes every click on
    ([onClick={onClick}]). *)
Definition ui_click_plain (g : Game) (idx : nat) : Game :=
  if canPlayerMove g idx then handleSquareClick g idx else g.

(** [z] is at least as good as [z'] for the player who chooses, strictly
    so when [strict] is set. *)
Definition beats (isMaximizing strict : bool) (z z' : Z) : Prop :=
  match isMaximizing, strict with
  | true, true => (z' < z)%Z
  | true, false => (z' ≤ z)%Z
  | false, true => (z < z')%Z
  | false, false => (z ≤ z')%Z
  end.

(** The two-player component [Game.jsx] as a transition system. *)
Definition simple_initial : Simple.Game :=
  {| Simple.squares := empty_board; Simple.xIsNext := true |}.

Inductive simple_step : Simple.Game → Simple.Game → Prop :=
  | simple_step_click h idx :
      idx < 9 → simple_step h (Simple.handleSquareClick h idx)
  | simple_step_restart h :
      simple_step h (Simple.handleRestart h).

Definition simple_reachable (h : Simple.Game) : Prop :=
  rtc simple_step simple_initial h.

(** What the two-player component would hold for a state of the component
    with the AI. *)
Definition pvp_view (g : Game) : Simple.Game :=
  {| Simple.squares := squares g; Simple.xIsNext := xIsNext g |}.

(** * Proofs *)

(** ** Arrays *)

Lemma sq_get_lookup (sq : Squares) i :
  sq_get sq i = None ↔ sq !! i = None ∨ sq !! i = Some None.
Proof.
  unfold sq_get. destruct (sq !! i) as [[m|]|]; intuition congruence.
Qed.

Lemma sq_get_Some (sq : Squares) i m :
  sq_get sq i = Some m ↔ sq !! i = Some (Some m).
Proof.
  unfold sq_get. destruct (sq !! i) as [[m'|]|]; intuition congruence.
Qed.

Lemma array_set_in_range (sq : Squares) i v :
  i < length sq → array_set sq i v = <[i:=v]> sq.
Proof. intros Hi. unfold array_set. by rewrite decide_True. Qed.

Lemma length_array_set_in_range (sq : Squares) i v :
  i < length sq → length (array_set sq i v) = length sq.
Proof. intros Hi. rewrite array_set_in_range by done. apply length_insert. Qed.

(** ** Available moves *)

Lemma getAvailableMoves_cons (c : Cell) (sq : Squares) :
  getAvailableMoves (c :: sq)
  = (if decide (c = None) then [0] else []) ++ (S <$> getAvailableMoves sq).
Proof.
  assert (Hshift : ∀ (l : Squares) (g : nat → nat),
    omap id (imap (λ idx val, if decide (val = None) then Some (g idx) else None) l)
    = g <$> getAvailableMoves l).
  { unfold getAvailableMoves. induction l as [|x l IH]; intros g; [done|].
    rewrite !imap_cons. cbn [omap list_omap id].
    change (omap id (imap ((λ idx val, if decide (val = None) then Some (g idx) else None) ∘ S) l))
      with (omap id (imap (λ idx val, if decide (val = None) then Some ((g ∘ S) idx) else None) l)).
    change (omap id (imap ((λ idx (val : Cell), if decide (val = None) then Some idx else None) ∘ S) l))
      with (omap id (imap (λ idx (val : Cell), if decide (val = None) then Some (S idx) else None) l)).
    rewrite (IH (g ∘ S)), (IH S).
    destruct (decide (x = None)); cbn; by rewrite <- list_fmap_compose. }
  unfold getAvailableMoves at 1. rewrite imap_cons. cbn [omap list_omap id].
  change (omap id (imap ((λ idx (val : Cell), if decide (val = None) then Some idx else None) ∘ S) sq))
    with (omap id (imap (λ idx (val : Cell), if decide (val = None) then Some (S idx) else None) sq)).
  rewrite (Hshift sq S). destruct (decide (c = None)); done.
Qed.

Lemma elem_of_getAvailableMoves (sq : Squares) m :
  m ∈ getAvailableMoves sq ↔ sq !! m = Some None.
Proof.
  revert m. induction sq as [|c sq IH]; intros m.
  - cbn. split; [by intros ?%elem_of_nil | done].
  - rewrite getAvailableMoves_cons, elem_of_app, list_elem_of_fmap.
    split.
    + intros [H|(k & -> & Hk)].
      * destruct (decide (c = None)) as [->|]; [|by apply elem_of_nil in H].
        apply list_elem_of_singleton in H as ->. done.
      * by apply IH in Hk.
    + destruct m as [|m]; cbn.
      * intros Hc. injection Hc as ->. left. rewrite decide_True by done. by left.
      * intros Hm. right. exists m. split; [done|]. by apply IH.
Qed.

Lemma getAvailableMoves_lt (sq : Squares) m :
  m ∈ getAvailableMoves sq → m < length sq.
Proof.
  rewrite elem_of_getAvailableMoves. intros H. by eapply lookup_lt_Some.
Qed.

Lemma getAvailableMoves_empty (sq : Squares) m :
  m ∈ getAvailableMoves sq → sq_get sq m = None.
Proof.
  rewrite elem_of_getAvailableMoves. unfold sq_get. by intros ->.
Qed.

(** Filling an empty cell removes one available move. *)
Lemma length_getAvailableMoves_insert (sq : Squares) m (v : Mark) :
  sq !! m = Some None →
  S (length (getAvailableMoves (<[m:=Some v]> sq)))
  = length (getAvailableMoves sq).
Proof.
  revert m. induction sq as [|c sq IH]; intros m Hm; [done|].
  destruct m as [|m]; cbn in Hm.
  - injection Hm as ->.
    change (<[0:=Some v]> (None :: sq)) with (Some v :: sq).
    rewrite !getAvailableMoves_cons.
    rewrite decide_False by done. rewrite decide_True by done.
    cbn. by rewrite !length_fmap.
  - change (<[S m:=Some v]> (c :: sq)) with (c :: <[m:=Some v]> sq).
    rewrite !getAvailableMoves_cons.
    rewrite !length_app, !length_fmap. specialize (IH m Hm).
    destruct (decide (c = None)); cbn; lia.
Qed.

Lemma length_getAvailableMoves_le (sq : Squares) :
  length (getAvailableMoves sq) ≤ length sq.
Proof.
  induction sq as [|c sq IH]; [done|].
  rewrite getAvailableMoves_cons, length_app, length_fmap.
  destruct (decide (c = None)); cbn; lia.
Qed.

(** [board.every(x => x != null)] fails exactly when a move is available. *)
Lemma every_filled_moves (sq : Squares) :
  forallb (λ x : Cell, bool_decide (x ≠ None)) sq = true
  ↔ getAvailableMoves sq = [].
Proof.
  induction sq as [|c sq IH]; [done|].
  rewrite getAvailableMoves_cons. cbn [forallb].
  destruct c as [m|]; cbn.
  - rewrite IH. split.
    + by intros ->.
    + intros H. by apply fmap_nil_inv in H.
  - done.
Qed.

(** ** The search loop and termination of [minimax] *)

Section minimax_facts.
Variables aiMark playerMark : Mark.

Lemma minimax_S fuel board isMaximizing :
  minimax aiMark playerMark (S fuel) board isMaximizing
  = if decide (winner (calculateWinner board) = Some aiMark)
    then Some {| score := Fin 1; move := Undefined |}
    else if decide (winner (calculateWinner board) = Some playerMark)
    then Some {| score := Fin (-1); move := Undefined |}
    else if forallb (λ x, bool_decide (x ≠ None)) board
    then Some {| score := Fin 0; move := Undefined |}
    else
      match
        search_loop isMaximizing
          (λ mv,
             minimax aiMark playerMark fuel
               (array_set board mv
                  (Some (if isMaximizing then aiMark else playerMark)))
               (negb isMaximizing))
          (getAvailableMoves board)
          (if isMaximizing then NegInfinity else PosInfinity, Null)
      with
      | None => None
      | Some best => Some {| score := best.1; move := best.2 |}
      end.
Proof. reflexivity. Qed.

Lemma search_loop_cons isMaximizing child mv moves best r :
  child mv = Some r →
  search_loop isMaximizing child (mv :: moves) best
  = search_loop isMaximizing child moves (keep_best isMaximizing best mv r).
Proof. intros Hr. unfold search_loop. cbn [foldl]. by rewrite Hr. Qed.

(** Once the best pair holds a number and an index it keeps doing so, and
    the index is the one it had or one of the moves still to come. *)
Lemma search_loop_keeps isMaximizing child moves z m0 :
  (∀ mv, mv ∈ moves → ∃ r z', child mv = Some r ∧ score r = Fin z') →
  ∃ z' m', search_loop isMaximizing child moves (Fin z, Index m0)
             = Some (Fin z', Index m')
           ∧ (m' = m0 ∨ m' ∈ moves).
Proof.
  revert z m0. induction moves as [|mv moves IH]; intros z m0 Hchild.
  - exists z, m0. split; [done | by left].
  - destruct (Hchild mv) as (r & z1 & Hr & Hz1); [by left|].
    rewrite (search_loop_cons _ _ _ _ _ _ Hr).
    assert (Hrest : ∀ mv', mv' ∈ moves →
              ∃ r' z', child mv' = Some r' ∧ score r' = Fin z').
    { intros mv' ?. apply Hchild. by right. }
    unfold keep_best. cbn [fst]. rewrite Hz1.
    destruct isMaximizing;
      match goal with |- context [if ?b then _ else _] => destruct b end.
    all: match goal with
         | |- context [search_loop _ _ _ (Fin ?a, Index ?b)] =>
             destruct (IH a b Hrest) as (z' & m' & -> & Hm')
         end.
    all: exists z', m'; split; [done|].
    all: destruct Hm' as [->|?]; [|by right; right].
    all: first [by left | by right; left].
Qed.

(** Started from an infinite score, the loop over a non-empty list of
    moves ends with a number and one of the moves. *)
Lemma search_loop_picks isMaximizing child moves :
  moves ≠ [] →
  (∀ mv, mv ∈ moves → ∃ r z, child mv = Some r ∧ score r = Fin z) →
  ∃ z m, search_loop isMaximizing child moves
           (if isMaximizing then NegInfinity else PosInfinity, Null)
         = Some (Fin z, Index m)
       ∧ m ∈ moves.
Proof.
  destruct moves as [|mv moves]; [done|]. intros _ Hchild.
  destruct (Hchild mv) as (r & z1 & Hr & Hz1); [by left|].
  rewrite (search_loop_cons _ _ _ _ _ _ Hr).
  assert (Hfirst : keep_best isMaximizing
            (if isMaximizing then NegInfinity else PosInfinity, Null) mv r
          = (Fin z1, Index mv)).
  { unfold keep_best. rewrite Hz1. by destruct isMaximizing. }
  rewrite Hfirst.
  destruct (search_loop_keeps isMaximizing child moves z1 mv)
    as (z' & m' & -> & Hm').
  { intros mv' ?. apply Hchild. by right. }
  exists z', m'. split; [done|].
  destruct Hm' as [->|?]; [by left | by right].
Qed.

(** [minimax] returns when it has more fuel than there are empty cells.
    Its score is a number; it names no move on a terminal board and an
    available move otherwise. *)
Lemma minimax_returns fuel board isMaximizing :
  length (getAvailableMoves board) < fuel →
  ∃ r z, minimax aiMark playerMark fuel board isMaximizing = Some r
       ∧ score r = Fin z
       ∧ (terminal aiMark playerMark board → move r = Undefined)
       ∧ (¬ terminal aiMark playerMark board →
          ∃ m, m ∈ getAvailableMoves board ∧ move r = Index m).
Proof.
  revert board isMaximizing.
  induction fuel as [|fuel IH]; intros board isMaximizing Hfuel; [lia|].
  rewrite minimax_S. unfold terminal.
  destruct (decide (winner (calculateWinner board) = Some aiMark)) as [Ha|Ha].
  { eexists _, _. split; [done|]. cbn. intuition. }
  destruct (decide (winner (calculateWinner board) = Some playerMark))
    as [Hp|Hp].
  { eexists _, _. split; [done|]. cbn. intuition. }
  destruct (forallb _ board) eqn:Hfull.
  { apply every_filled_moves in Hfull.
    eexists _, _. split; [done|]. cbn. intuition. }
  assert (Hmoves : getAvailableMoves board ≠ []).
  { intros Hnil. apply every_filled_moves in Hnil. congruence. }
  edestruct (search_loop_picks isMaximizing) as (z & m & -> & Hm);
    [exact Hmoves | | ].
  { intros mv Hmv. cbv beta.
    pose proof (getAvailableMoves_lt _ _ Hmv) as Hlt.
    apply elem_of_getAvailableMoves in Hmv.
    rewrite array_set_in_range by done.
    edestruct (IH (<[mv:=Some (if isMaximizing then aiMark else playerMark)]>
                     board) (negb isMaximizing))
      as (r & z & Hr & Hz & _).
    { pose proof (length_getAvailableMoves_insert board mv
                    (if isMaximizing then aiMark else playerMark) Hmv).
      lia. }
    eauto. }
  eexists _, z. split; [done|]. cbn. split; [done|].
  split; [intuition | eauto].
Qed.

(** The search at the root of [getBestAIMove] never runs out of fuel. *)
Lemma getBestAIMove_returns randomIndex squares :
  ∃ mv, getBestAIMove aiMark playerMark randomIndex squares = Some mv.
Proof.
  unfold getBestAIMove. repeat case_decide; eauto.
  destruct (minimax_returns (S (length squares)) squares true)
    as (r & z & -> & _).
  { pose proof (length_getAvailableMoves_le squares). lia. }
  cbn. eauto.
Qed.

(** On a board of nine cells that is not terminal, the selector returns
    the index of an empty cell of the board. *)
Lemma getBestAIMove_legal randomIndex squares :
  random_ok randomIndex →
  length squares = 9 →
  ¬ terminal aiMark playerMark squares →
  ∃ m, getBestAIMove aiMark playerMark randomIndex squares = Some (Index m)
     ∧ m < 9 ∧ sq_get squares m = None.
Proof.
  intros Hrnd Hlen Hterm. unfold getBestAIMove.
  assert (Hpick : ∀ cand : list nat,
    0 < length (filter (λ i, sq_get squares i = None) cand) →
    Forall (λ i, i < 9) cand →
    ∃ m, index_at (filter (λ i, sq_get squares i = None) cand)
           (randomIndex (length (filter (λ i, sq_get squares i = None) cand)))
         = Index m
       ∧ m < 9 ∧ sq_get squares m = None).
  { intros cand Hpos Hcand. unfold index_at.
    destruct (lookup_lt_is_Some_2 _ _ (Hrnd _ Hpos)) as [m Hm].
    rewrite Hm. exists m. split; [done|].
    apply list_elem_of_lookup_2, list_elem_of_filter in Hm as [? Hin].
    split; [|done]. by eapply (proj1 (Forall_forall _ _) Hcand). }
  case_decide as He.
  - case_decide; [exists 4; split; [done|]; split; [lia|done] |].
    case_decide.
    { destruct (Hpick [0; 2; 6; 8]) as (m & -> & ?); [done| |by eauto].
      repeat constructor; lia. }
    case_decide.
    { destruct (Hpick [1; 3; 5; 7]) as (m & -> & ?); [done| |by eauto].
      repeat constructor; lia. }
    destruct (getAvailableMoves squares) as [|m l] eqn:Hav; [cbn in He; lia|].
    exists m. cbn. split; [done|].
    assert (m ∈ getAvailableMoves squares) as Hm by (rewrite Hav; by left).
    split; [|by apply getAvailableMoves_empty].
    rewrite <- Hlen. by apply getAvailableMoves_lt.
  - destruct (minimax_returns (S (length squares)) squares true)
      as (r & z & -> & _ & _ & Hmove).
    { pose proof (length_getAvailableMoves_le squares). lia. }
    destruct (Hmove Hterm) as (m & Hm & Hr). cbn. rewrite Hr. exists m.
    split; [done|]. split; [|by apply getAvailableMoves_empty].
    rewrite <- Hlen. by apply getAvailableMoves_lt.
Qed.
End minimax_facts.

(** ** Win detection *)

Lemma line_matches_spec (sq : Squares) (l : Line) :
  line_matches sq l = true ↔ ∃ m, three_in_a_row sq l m.
Proof.
  destruct l as [[a b] c]. unfold line_matches, three_in_a_row. cbn [fst snd].
  rewrite !andb_true_iff, !bool_decide_eq_true. split.
  - intros [[Ha Hb] Hc]. destruct (sq_get sq a) as [m|] eqn:E; [|done].
    exists m. by rewrite <- Hb, <- Hc.
  - intros (m & -> & -> & ->). done.
Qed.

(** The loop returns the first line of [ls] that matches, with the mark of
    its first cell. *)
Lemma scan_lines_Some (sq : Squares) (ls : list Line) m l :
  scan_lines sq ls = {| winner := Some m; line := Some l |}
  ↔ ∃ before after, ls = before ++ l :: after
      ∧ Forall (λ l', line_matches sq l' = false) before
      ∧ three_in_a_row sq l m.
Proof.
  induction ls as [|l0 ls IH]; cbn [scan_lines].
  - split; [done|]. intros (before & after & H & _). by destruct before.
  - destruct (line_matches sq l0) eqn:Hm.
    + split.
      * intros [= Hw ->]. exists [], ls. split; [done|]. split; [done|].
        apply line_matches_spec in Hm as (m' & Hm').
        assert (m' = m) as -> by (destruct Hm' as [H1 _]; congruence). done.
      * intros (before & after & Heq & Hbefore & Hrow).
        destruct before as [|l1 before]; cbn in Heq.
        -- injection Heq as -> ->. by destruct Hrow as [-> _].
        -- injection Heq as -> _. apply Forall_cons in Hbefore as [? _].
           congruence.
    + rewrite IH. split.
      * intros (before & after & -> & Hbefore & Hrow).
        exists (l0 :: before), after. split; [done|]. split; [|done].
        by constructor.
      * intros (before & after & Heq & Hbefore & Hrow).
        destruct before as [|l1 before]; cbn in Heq.
        -- injection Heq as -> ->.
           assert (line_matches sq l = true) by (apply line_matches_spec; eauto).
           congruence.
        -- injection Heq as -> ->. apply Forall_cons in Hbefore as [_ ?].
           eauto.
Qed.

(** Without a matching line both fields are [null]; with one, both are set. *)
Lemma scan_lines_None (sq : Squares) (ls : list Line) :
  winner (scan_lines sq ls) = None
  ↔ Forall (λ l, line_matches sq l = false) ls.
Proof.
  induction ls as [|l0 ls IH]; cbn [scan_lines]; [done|].
  destruct (line_matches sq l0) eqn:Hm.
  - cbn. destruct (proj1 (line_matches_spec sq l0) Hm) as (m & Hrow & _).
    rewrite Hrow. split; [done|]. intros [? _]%Forall_cons. congruence.
  - rewrite IH. split; [by constructor | by intros [_ ?]%Forall_cons].
Qed.

Lemma scan_lines_shape (sq : Squares) (ls : list Line) :
  scan_lines sq ls = {| winner := None; line := None |}
  ∨ ∃ m l, scan_lines sq ls = {| winner := Some m; line := Some l |}.
Proof.
  induction ls as [|l0 ls IH]; cbn [scan_lines]; [by left|].
  destruct (line_matches sq l0) eqn:Hm; [|done].
  apply line_matches_spec in Hm as (m & Hm & _). rewrite Hm. eauto.
Qed.

(** A winner is reported exactly when some line holds three equal marks. *)
Lemma winner_iff_row (sq : Squares) :
  winner (calculateWinner sq) ≠ None
  ↔ ∃ l m, l ∈ lines ∧ three_in_a_row sq l m.
Proof.
  unfold calculateWinner. rewrite scan_lines_None. split.
  - intros H. apply not_Forall_Exists in H; [|apply _].
    apply Exists_exists in H as (l & Hl & Hm). cbn in Hm.
    apply not_false_is_true, line_matches_spec in Hm as (m & Hm). eauto.
  - intros (l & m & Hl & Hrow) H.
    assert (line_matches sq l = true) by (apply line_matches_spec; eauto).
    pose proof (proj1 (Forall_forall _ _) H l Hl). cbn in *. congruence.
Qed.

(** C3: [calculateWinner] reports a winner exactly when one of the eight
    triples (the rows, then the columns, then the diagonals) holds three
    equal marks; the line it reports is the first such triple in that order,
    the winner is its mark, and the result is unique. *)
Theorem calculateWinner_first_triple (sq : Squares) :
  lines = rows ++ columns ++ diagonals
  ∧ (winner (calculateWinner sq) ≠ None
     ↔ ∃ l m, l ∈ lines ∧ three_in_a_row sq l m)
  ∧ (∀ m l,
       calculateWinner sq = {| winner := Some m; line := Some l |}
       ↔ ∃ before after, lines = before ++ l :: after
           ∧ (∀ l' m', l' ∈ before → ¬ three_in_a_row sq l' m')
           ∧ three_in_a_row sq l m)
  ∧ ((∀ l m, l ∈ lines → ¬ three_in_a_row sq l m)
     → calculateWinner sq = {| winner := None; line := None |})
  ∧ (∀ m1 l1 m2 l2,
       calculateWinner sq = {| winner := Some m1; line := l1 |} →
       calculateWinner sq = {| winner := Some m2; line := l2 |} →
       m1 = m2 ∧ l1 = l2).
Proof.
  assert (Hno : ∀ ls : list Line,
            Forall (λ l, line_matches sq l = false) ls
            ↔ ∀ l m, l ∈ ls → ¬ three_in_a_row sq l m).
  { intros ls. rewrite Forall_forall. split.
    - intros H l m Hl Hrow. specialize (H l Hl).
      assert (line_matches sq l = true) by (apply line_matches_spec; eauto).
      congruence.
    - intros H l Hl. destruct (line_matches sq l) eqn:Hm; [|done].
      apply line_matches_spec in Hm as (m & Hm). by destruct (H l m Hl). }
  unfold calculateWinner. split; [done|]. split; [|split; [|split]].
  - apply winner_iff_row.
  - intros m l. rewrite scan_lines_Some.
    split; intros (before & after & Heq & Hbefore & Hrow);
      exists before, after; (split; [done|]); (split; [|done]).
    + intros l' m'. by apply (proj1 (Hno before)).
    + apply (proj2 (Hno before)). intros l' m'. by apply Hbefore.
  - intros H. apply (proj2 (Hno lines)), scan_lines_None in H.
    destruct (scan_lines_shape sq lines) as [|(m & l & Heq)]; [done|].
    rewrite Heq in H. done.
  - intros m1 l1 m2 l2 H1 H2. rewrite H1 in H2. by injection H2 as -> ->.
Qed.

(** ** Draw detection *)

Lemma moveCount_cons (c : Cell) (sq : Squares) :
  moveCount (c :: sq) = (if c is Some _ then 1 else 0) + moveCount sq.
Proof.
  unfold moveCount. rewrite filter_cons.
  destruct c; [rewrite decide_True by done | rewrite decide_False by auto];
    done.
Qed.

(** Every cell is either occupied or an available move. *)
Lemma moveCount_getAvailableMoves (sq : Squares) :
  moveCount sq + length (getAvailableMoves sq) = length sq.
Proof.
  induction sq as [|c sq IH]; [done|].
  rewrite moveCount_cons, getAvailableMoves_cons, length_app, length_fmap.
  destruct c; [rewrite decide_False by done | rewrite decide_True by done];
    cbn [length]; lia.
Qed.

Lemma getAvailableMoves_nil_Forall (sq : Squares) :
  getAvailableMoves sq = [] ↔ Forall (λ c, c ≠ None) sq.
Proof.
  rewrite <- every_filled_moves.
  induction sq as [|c sq IH]; cbn [forallb]; [done|].
  rewrite Forall_cons, andb_true_iff, bool_decide_eq_true, IH. done.
Qed.

Lemma moveCount_full (sq : Squares) :
  moveCount sq = length sq ↔ Forall (λ c, c ≠ None) sq.
Proof.
  rewrite <- getAvailableMoves_nil_Forall.
  pose proof (moveCount_getAvailableMoves sq).
  rewrite <- length_zero_iff_nil. lia.
Qed.

(** C8: on a board of nine cells the draw flag is set exactly when there is
    no winner and every cell is occupied; the full board X O X / O X O /
    O X O has no winner and its status is a draw. *)
Theorem isDraw_iff_full_without_winner :
  (∀ sq : Squares,
     length sq = 9 →
     (isDraw sq = true
      ↔ winner (calculateWinner sq) = None ∧ Forall (λ c, c ≠ None) sq))
  ∧ (let full := [Some X; Some O; Some X;
                  Some O; Some X; Some O;
                  Some O; Some X; Some O] in
     calculateWinner full = {| winner := None; line := None |}
     ∧ isDraw full = true
     ∧ status full = Drawn).
Proof.
  split; [|done].
  intros sq Hlen. unfold isDraw.
  rewrite andb_true_iff, !bool_decide_eq_true, <- moveCount_full, Hlen. done.
Qed.

Lemma isDraw_iff_full_without_winner_witness :
  length [Some X; Some O; Some X; Some O; Some X; Some O;
          Some O; Some X; Some O] = 9
  ∧ (isDraw [Some X; Some O; Some X; Some O; Some X; Some O;
             Some O; Some X; Some O] = true
     ↔ winner (calculateWinner [Some X; Some O; Some X; Some O; Some X;
                                Some O; Some O; Some X; Some O]) = None
       ∧ Forall (λ c : Cell, c ≠ None)
           [Some X; Some O; Some X; Some O; Some X; Some O;
            Some O; Some X; Some O]).
Proof.
  split; [reflexivity|].
  apply (proj1 isDraw_iff_full_without_winner). reflexivity.
Defined.

(** ** Handlers *)

(** C9: restarting yields, from any state, the empty board with X to move,
    no AI move pending and the game ongoing; the mode is kept.  The
    two-player component resets its two fields in the same way. *)
Theorem handleRestart_resets (g : Game) (h : Simple.Game) :
  handleRestart g
  = {| squares := [None; None; None; None; None; None; None; None; None];
       xIsNext := true; mode := mode g; aiMark := aiMark g;
       isAITurning := false |}
  ∧ status (squares (handleRestart g)) = Ongoing
  ∧ aiEffectGuard (handleRestart g) = false
  ∧ Simple.handleRestart h
    = {| Simple.squares :=
           [None; None; None; None; None; None; None; None; None];
         Simple.xIsNext := true |}.
Proof.
  repeat split. unfold aiEffectGuard. cbn. by rewrite !andb_false_r.
Qed.

(** C5: a click on an occupied cell, or after the game is won or drawn, or,
    in AI mode, while it is not the human's turn (O is to move or the AI's
    move is pending), returns the state as it was. *)
Theorem handleSquareClick_ignored (g : Game) (idx : nat) :
  sq_get (squares g) idx ≠ None
  ∨ status (squares g) ≠ Ongoing
  ∨ (mode g = ai ∧ (xIsNext g = false ∨ isAITurning g = true)) →
  handleSquareClick g idx = g.
Proof.
  intros H. unfold handleSquareClick.
  enough (canPlayerMove g idx = false) as -> by done.
  unfold canPlayerMove.
  destruct (bool_decide (winner (calculateWinner (squares g)) ≠ None)
            || isDraw (squares g)) eqn:Hover; [done|].
  apply orb_false_iff in Hover as [Hwin Hdraw].
  apply bool_decide_eq_false in Hwin.
  destruct H as [Hocc|[Hst|[Hmode Hturn]]].
  - repeat match goal with |- context [if ?b then _ else _] => destruct b end;
      try done.
    by apply bool_decide_eq_false.
  - destruct Hst. unfold status.
    destruct (winner (calculateWinner (squares g))); [by destruct Hwin|].
    by rewrite Hdraw.
  - rewrite (bool_decide_eq_true_2 _ Hmode). cbn.
    destruct Hturn as [->| ->]; [|done]. by destruct (isAITurning g).
Qed.

Lemma handleSquareClick_ignored_witness :
  let g := {| squares := [Some X; None; None; None; None; None; None; None; None];
              xIsNext := false; mode := ai; aiMark := O;
              isAITurning := true |} in
  handleSquareClick g 0 = g ∧ handleSquareClick g 5 = g.
Proof.
  split.
  - apply handleSquareClick_ignored. left. discriminate.
  - apply handleSquareClick_ignored. right. right. split; [reflexivity|].
    left. reflexivity.
Defined.

(** ** Move selection *)

(** Indexing the empty cells among [cand] with a number below their count
    yields one of them. *)
Lemma random_candidate randomIndex (sq : Squares) (cand : list nat) :
  random_ok randomIndex →
  (∃ c, c ∈ cand ∧ sq_get sq c = None) →
  0 < length (filter (λ i, sq_get sq i = None) cand)
  ∧ ∃ c, c ∈ cand ∧ sq_get sq c = None
       ∧ index_at (filter (λ i, sq_get sq i = None) cand)
           (randomIndex (length (filter (λ i, sq_get sq i = None) cand)))
         = Index c.
Proof.
  intros Hrnd (c0 & Hc0 & He0).
  assert (Hpos : 0 < length (filter (λ i, sq_get sq i = None) cand)).
  { assert (c0 ∈ filter (λ i, sq_get sq i = None) cand) as Hin
      by (by apply list_elem_of_filter).
    destruct (filter _ cand); [by apply elem_of_nil in Hin | cbn; lia]. }
  split; [done|]. unfold index_at.
  destruct (lookup_lt_is_Some_2 _ _ (Hrnd _ Hpos)) as [c Hc]. rewrite Hc.
  apply list_elem_of_lookup_2, list_elem_of_filter in Hc as [? ?]. eauto.
Qed.

Lemma no_candidate (sq : Squares) (cand : list nat) :
  (∀ c, c ∈ cand → sq_get sq c ≠ None) →
  filter (λ i, sq_get sq i = None) cand = [].
Proof.
  intros H. induction cand as [|c cand IH]; [done|].
  rewrite filter_cons, decide_False by (apply H; by left).
  apply IH. intros c' Hc'. apply H. by right.
Qed.

(** C7: with seven or more empty cells the selector takes the centre when
    it is empty, otherwise an empty corner, otherwise an empty side,
    otherwise the first available index; after X has opened at index 0 in
    AI mode (eight cells empty) it answers 4. *)
Theorem getBestAIMove_opening (randomIndex : nat → nat) :
  random_ok randomIndex →
  (∀ (aiMark playerMark : Mark) (sq : Squares),
     7 ≤ length (getAvailableMoves sq) →
     let empty i := sq_get sq i = None in
     let result := getBestAIMove aiMark playerMark randomIndex sq in
     (empty 4 → result = Some (Index 4))
     ∧ (¬ empty 4 → (∃ c, c ∈ [0; 2; 6; 8] ∧ empty c) →
        ∃ c, c ∈ [0; 2; 6; 8] ∧ empty c ∧ result = Some (Index c))
     ∧ (¬ empty 4 → (∀ c, c ∈ [0; 2; 6; 8] → ¬ empty c) →
        (∃ c, c ∈ [1; 3; 5; 7] ∧ empty c) →
        ∃ c, c ∈ [1; 3; 5; 7] ∧ empty c ∧ result = Some (Index c))
     ∧ (¬ empty 4 → (∀ c, c ∈ [0; 2; 6; 8] → ¬ empty c) →
        (∀ c, c ∈ [1; 3; 5; 7] → ¬ empty c) →
        ∃ m, head (getAvailableMoves sq) = Some m
           ∧ result = Some (Index m)))
  ∧ (let g := handleSquareClick (handleModeChange initial ai) 0 in
     squares g = [Some X; None; None; None; None; None; None; None; None]
     ∧ length (getAvailableMoves (squares g)) = 8
     ∧ getBestAIMove (aiMark g) (opponent (aiMark g)) randomIndex (squares g)
       = Some (Index 4)).
Proof.
  intros Hrnd. split; [|done].
  intros aiMark playerMark sq He empty result. subst empty result.
  unfold getBestAIMove. rewrite (decide_True _ _ He).
  split; [intros H4; by rewrite (decide_True _ _ H4)|].
  split; [|split].
  - intros H4 Hcorner. rewrite (decide_False _ _ H4).
    destruct (random_candidate randomIndex sq [0; 2; 6; 8] Hrnd Hcorner)
      as (Hpos & c & ? & ? & Hc).
    rewrite (decide_True _ _ Hpos), Hc. eauto.
  - intros H4 Hcorner Hside. rewrite (decide_False _ _ H4).
    rewrite (no_candidate sq [0; 2; 6; 8] Hcorner).
    rewrite decide_False by (cbn; lia).
    destruct (random_candidate randomIndex sq [1; 3; 5; 7] Hrnd Hside)
      as (Hpos & c & ? & ? & Hc).
    rewrite (decide_True _ _ Hpos), Hc. eauto.
  - intros H4 Hcorner Hside. rewrite (decide_False _ _ H4).
    rewrite (no_candidate sq [0; 2; 6; 8] Hcorner).
    rewrite (no_candidate sq [1; 3; 5; 7] Hside).
    rewrite !decide_False by (cbn; lia).
    destruct (getAvailableMoves sq) as [|m l]; [cbn in He; lia|].
    exists m. done.
Qed.

Lemma getBestAIMove_opening_witness :
  let sq := [None; None; None; None; Some X; None; None; None; None] in
  ∃ c, c ∈ [0; 2; 6; 8] ∧ sq_get sq c = None
     ∧ getBestAIMove O X (λ n, n - 1) sq = Some (Index c).
Proof.
  assert (Hrnd : random_ok (λ n, n - 1)) by (intros n Hn; cbn; lia).
  refine (proj1 (proj2
    (proj1 (getBestAIMove_opening (λ n, n - 1) Hrnd) O X
       [None; None; None; None; Some X; None; None; None; None] _)) _ _).
  - vm_compute. lia.
  - discriminate.
  - exists 0. split; [by left | reflexivity].
Defined.

(** C2 as stated fails: on this board the search does not return 5. *)
Lemma minimax_blocks_row_counterexample :
  getBestAIMove O X (λ _, 0)
    [Some X; Some X; None; Some O; Some O; None; None; None; None]
  ≠ Some (Index 5).
Proof. vm_compute. discriminate. Qed.

(** C2, amended: on the board X X _ / O O _ / _ _ _ with O to move (five
    cells empty) the search returns index 2.  Playing 2 and playing 5 both
    score +1 (5 wins at once, 2 blocks X and leaves O two winning cells),
    and the loop keeps the first move that reaches the best score. *)
Theorem minimax_first_best_move (randomIndex : nat → nat) :
  let board := [Some X; Some X; None; Some O; Some O; None; None; None; None] in
  length (getAvailableMoves board) = 5
  ∧ getBestAIMove O X randomIndex board = Some (Index 2)
  ∧ minimax O X 10 board true = Some {| score := Fin 1; move := Index 2 |}
  ∧ score <$> minimax O X 9 (array_set board 2 (Some O)) false = Some (Fin 1)
  ∧ score <$> minimax O X 9 (array_set board 5 (Some O)) false = Some (Fin 1).
Proof. vm_compute. done. Qed.

(** A winner occupies three cells, so a won board of nine cells has at most
    six empty ones and is handed to the search, not to the opening policy. *)
Lemma winner_few_empty (sq : Squares) :
  length sq = 9 →
  winner (calculateWinner sq) ≠ None →
  length (getAvailableMoves sq) ≤ 6.
Proof.
  intros Hlen Hwin.
  apply winner_iff_row in Hwin as (l & m & Hl & Hrow).
  pose proof (moveCount_getAvailableMoves sq) as Hsum.
  enough (3 ≤ moveCount sq) by lia.
  do 10 (destruct sq as [|? sq]; try discriminate Hlen). clear Hlen Hsum.
  unfold three_in_a_row in Hrow.
  repeat (apply elem_of_cons in Hl as [->|Hl]);
    [..|by apply elem_of_nil in Hl];
    cbn in Hrow; destruct Hrow as (-> & -> & ->);
    rewrite !moveCount_cons; cbn; lia.
Qed.

(** C6 as stated fails: on a full board the call returns normally. *)
Lemma getBestAIMove_throws_counterexample :
  getBestAIMove_call O X (λ _, 0)
    [Some X; Some O; Some X; Some O; Some X; Some O; Some O; Some X; Some O]
  ≠ Some (Throws NoLegalMove).
Proof. vm_compute. discriminate. Qed.

(** C6, amended: on a board of nine cells that is full or already won the
    selector returns [undefined] and raises no error; the timer callback of
    the controller then places no mark and only clears the pending flag. *)
Theorem getBestAIMove_undefined_on_finished_board
    (me : Mark) (randomIndex : nat → nat) (sq : Squares) :
  length sq = 9 →
  getAvailableMoves sq = [] ∨ winner (calculateWinner sq) ≠ None →
  getBestAIMove me (opponent me) randomIndex sq = Some Undefined
  ∧ getBestAIMove_call me (opponent me) randomIndex sq
    = Some (Returns Undefined)
  ∧ ∀ g, squares g = sq → aiMark g = me →
      aiTimeout randomIndex g
      = Some {| squares := sq; xIsNext := xIsNext g; mode := mode g;
                aiMark := me; isAITurning := false |}.
Proof.
  intros Hlen Hdone.
  assert (Hres : getBestAIMove me (opponent me) randomIndex sq
                 = Some Undefined).
  { unfold getBestAIMove. rewrite decide_False.
    - destruct (minimax_returns me (opponent me) (S (length sq)) sq true)
        as (r & z & -> & _ & Hmove & _).
      { pose proof (length_getAvailableMoves_le sq). lia. }
      cbn. f_equal. apply Hmove. unfold terminal.
      destruct Hdone as [?|Hwin]; [by auto|].
      destruct (winner (calculateWinner sq)) as [m|]; [|done].
      destruct m, me; auto.
    - destruct Hdone as [->|Hwin]; [cbn; lia|].
      pose proof (winner_few_empty sq Hlen Hwin). lia. }
  split; [done|]. split; [unfold getBestAIMove_call; by rewrite Hres|].
  intros g <- <-. unfold aiTimeout. by rewrite Hres.
Qed.

Lemma getBestAIMove_undefined_on_finished_board_witness :
  getBestAIMove O (opponent O) (λ _, 0)
    [Some X; Some X; Some X; Some O; Some O; None; None; None; None]
  = Some Undefined.
Proof.
  refine (proj1 (getBestAIMove_undefined_on_finished_board O (λ _, 0)
    [Some X; Some X; Some X; Some O; Some O; None; None; None; None] _ _)).
  - reflexivity.
  - right. vm_compute. discriminate.
Defined.

(** ** Invariants of the running component *)

Lemma count_mark_cons (m : Mark) (c : Cell) (sq : Squares) :
  count_mark m (c :: sq)
  = (if decide (c = Some m) then 1 else 0) + count_mark m sq.
Proof.
  unfold count_mark. rewrite filter_cons. by destruct (decide (c = Some m)).
Qed.

(** Writing a mark into an empty cell raises the count of that mark by one
    and leaves the count of the other mark. *)
Lemma count_mark_insert (m m' : Mark) (sq : Squares) i :
  sq !! i = Some None →
  count_mark m (<[i:=Some m']> sq)
  = count_mark m sq + (if decide (m' = m) then 1 else 0).
Proof.
  revert i. induction sq as [|c sq IH]; intros i Hi; [done|].
  destruct i as [|i]; cbn in Hi.
  - injection Hi as ->.
    change (<[0:=Some m']> (None :: sq)) with (Some m' :: sq).
    rewrite !count_mark_cons. rewrite (decide_False (P := None = Some m)) by done.
    destruct (decide (m' = m)) as [->|Hne].
    + rewrite decide_True by done. lia.
    + rewrite decide_False by congruence. lia.
  - change (<[S i:=Some m']> (c :: sq)) with (c :: <[i:=Some m']> sq).
    rewrite !count_mark_cons, (IH i Hi). lia.
Qed.

Lemma count_mark_insert_X (sq : Squares) i :
  sq !! i = Some None →
  count_mark X (<[i:=Some X]> sq) = S (count_mark X sq)
  ∧ count_mark O (<[i:=Some X]> sq) = count_mark O sq.
Proof.
  intros Hi. rewrite !count_mark_insert by done.
  rewrite decide_True by done. rewrite decide_False by done. lia.
Qed.

Lemma count_mark_insert_O (sq : Squares) i :
  sq !! i = Some None →
  count_mark X (<[i:=Some O]> sq) = count_mark X sq
  ∧ count_mark O (<[i:=Some O]> sq) = S (count_mark O sq).
Proof.
  intros Hi. rewrite !count_mark_insert by done.
  rewrite decide_False by done. rewrite decide_True by done. lia.
Qed.

Lemma canPlayerMove_true (g : Game) idx :
  canPlayerMove g idx = true →
  winner (calculateWinner (squares g)) = None
  ∧ isDraw (squares g) = false
  ∧ (mode g = ai → isAITurning g = false ∧ xIsNext g = true)
  ∧ sq_get (squares g) idx = None.
Proof.
  unfold canPlayerMove.
  destruct (bool_decide (winner (calculateWinner (squares g)) ≠ None)
            || isDraw (squares g)) eqn:Hover; [done|].
  apply orb_false_iff in Hover as [Hwin Hdraw].
  apply bool_decide_eq_false in Hwin.
  destruct (winner (calculateWinner (squares g))) eqn:Hw; [by destruct Hwin|].
  destruct (decide (mode g = ai)) as [Hm|Hm].
  - rewrite (bool_decide_eq_true_2 _ Hm). cbn.
    destruct (isAITurning g); [done|]. destruct (xIsNext g); [|done].
    cbn. intros ?%bool_decide_eq_true. done.
  - rewrite (bool_decide_eq_false_2 _ Hm). cbn.
    intros ?%bool_decide_eq_true. done.
Qed.

Lemma aiEffectGuard_true (g : Game) :
  aiEffectGuard g = true →
  mode g = ai
  ∧ winner (calculateWinner (squares g)) = None
  ∧ isDraw (squares g) = false
  ∧ xIsNext g = false.
Proof.
  unfold aiEffectGuard. rewrite !andb_true_iff, !bool_decide_eq_true.
  rewrite !negb_true_iff. tauto.
Qed.

(** An undecided board of nine cells is not terminal for the search. *)
Lemma undecided_not_terminal (ai pl : Mark) (sq : Squares) :
  length sq = 9 →
  winner (calculateWinner sq) = None →
  isDraw sq = false →
  ¬ terminal ai pl sq.
Proof.
  intros Hlen Hwin Hdraw [H|[H|H]]; [congruence..|].
  unfold isDraw in Hdraw. rewrite (bool_decide_eq_true_2 _ Hwin) in Hdraw.
  cbn in Hdraw. apply bool_decide_eq_false in Hdraw.
  pose proof (moveCount_getAvailableMoves sq) as Hsum.
  rewrite H in Hsum. cbn in Hsum. lia.
Qed.

(** When the timer fires in a well-formed state, the callback writes O into
    an empty cell chosen by [getBestAIMove] and hands the turn back. *)
Lemma aiTimeout_moves (randomIndex : nat → nat) (g : Game) :
  well_formed g →
  isAITurning g = true →
  random_ok randomIndex →
  ∃ i, i < 9
     ∧ (squares g) !! i = Some None
     ∧ getBestAIMove O X randomIndex (squares g) = Some (Index i)
     ∧ aiTimeout randomIndex g
       = Some {| squares := <[i:=Some O]> (squares g); xIsNext := true;
                 mode := mode g; aiMark := aiMark g; isAITurning := false |}.
Proof.
  intros (Hlen & Hai & Hpending & _) Hturn Hrnd.
  destruct (aiEffectGuard_true g (Hpending Hturn)) as (_ & Hwin & Hdraw & _).
  destruct (getBestAIMove_legal O X randomIndex (squares g) Hrnd Hlen)
    as (i & Hmove & Hi & Hempty).
  { by apply undecided_not_terminal. }
  exists i. split; [done|].
  assert ((squares g) !! i = Some None) as Hcell.
  { apply sq_get_lookup in Hempty as [Hnone|?]; [|done].
    apply lookup_ge_None in Hnone. lia. }
  split; [done|]. split; [done|].
  unfold aiTimeout. rewrite Hai. cbn [opponent]. rewrite Hmove.
  rewrite (decide_True _ _ Hempty), array_set_in_range by lia. done.
Qed.

Lemma well_formed_initial : well_formed initial.
Proof. repeat split; done. Qed.

Lemma well_formed_reset (g : Game) (val : Mode) :
  aiMark g = O →
  well_formed {| squares := empty_board; xIsNext := true; mode := val;
                 aiMark := aiMark g; isAITurning := false |}.
Proof. intros Hai. repeat split; done. Qed.

Lemma well_formed_step (g g' : Game) :
  well_formed g → step g g' → well_formed g'.
Proof.
  intros Hwf Hstep. pose proof Hwf as (Hlen & Hai & Hpending & Hcount).
  destruct Hstep as [g idx Hidx|g|g val|g Hguard|g g' rnd Hturn Hrnd Hfire].
  - unfold handleSquareClick.
    destruct (canPlayerMove g idx) eqn:Hcan; [|done]. cbn [negb].
    apply canPlayerMove_true in Hcan as (Hwin & Hdraw & Hhuman & Hempty).
    assert ((squares g) !! idx = Some None) as Hcell.
    { apply sq_get_lookup in Hempty as [Hnone|?]; [|done].
      apply lookup_ge_None in Hnone. lia. }
    rewrite array_set_in_range by lia.
    unfold well_formed. cbn [squares xIsNext mode aiMark isAITurning].
    split; [by rewrite length_insert|]. split; [done|].
    split.
    + intros Hturn. destruct (aiEffectGuard_true g (Hpending Hturn)) as (Hm & _).
      destruct (Hhuman Hm) as [? _]. congruence.
    + destruct (count_mark_insert_X (squares g) idx Hcell) as [HX1 HX2].
      destruct (count_mark_insert_O (squares g) idx Hcell) as [HO1 HO2].
      destruct (xIsNext g); cbn [negb]; lia.
  - by apply well_formed_reset.
  - by apply well_formed_reset.
  - unfold aiEffectStart. rewrite Hguard. repeat split; done.
  - destruct (aiTimeout_moves rnd g Hwf Hturn Hrnd)
      as (i & Hi & Hcell & _ & Hres).
    rewrite Hres in Hfire. injection Hfire as <-.
    destruct (aiEffectGuard_true g (Hpending Hturn)) as (_ & _ & _ & Hx).
    unfold well_formed. cbn [squares xIsNext mode aiMark isAITurning].
    split; [by rewrite length_insert|]. split; [done|].
    split; [done|].
    destruct (count_mark_insert_O (squares g) i Hcell) as [HO1 HO2].
    rewrite Hx in Hcount. lia.
Qed.

Lemma reachable_well_formed (g : Game) : reachable g → well_formed g.
Proof.
  revert g. apply rtc_ind_r.
  - apply well_formed_initial.
  - intros g g' _ Hstep IH. by eapply well_formed_step.
Qed.

(** C4: in every reachable state the number of X cells exceeds the number
    of O cells by zero or by one. *)
Theorem reachable_mark_counts (g : Game) :
  reachable g →
  (Z.of_nat (count_mark X (squares g)) - Z.of_nat (count_mark O (squares g))
   = 0)%Z
  ∨ (Z.of_nat (count_mark X (squares g)) - Z.of_nat (count_mark O (squares g))
     = 1)%Z.
Proof.
  intros (_ & _ & _ & Hcount)%reachable_well_formed.
  destruct (xIsNext g); [left | right]; lia.
Qed.

Lemma reachable_mark_counts_witness :
  let g := handleSquareClick (handleModeChange initial ai) 0 in
  reachable g
  ∧ ((Z.of_nat (count_mark X (squares g)) - Z.of_nat (count_mark O (squares g))
      = 0)%Z
     ∨ (Z.of_nat (count_mark X (squares g)) - Z.of_nat (count_mark O (squares g))
        = 1)%Z).
Proof.
  assert (Hreach : reachable (handleSquareClick (handleModeChange initial ai) 0)).
  { eapply rtc_l; [apply (step_mode initial ai)|].
    eapply rtc_l; [apply (step_click _ 0); lia|]. apply rtc_refl. }
  split; [exact Hreach|]. exact (reachable_mark_counts _ Hreach).
Defined.

Lemma step_aiMark (g g' : Game) : step g g' → aiMark g' = aiMark g.
Proof.
  intros [g0 idx _|g0|g0 val|g0 _|g0 g1 rnd _ _ Hfire]; try done.
  - unfold handleSquareClick. by destruct (negb _).
  - unfold aiEffectStart. by destruct (aiEffectGuard g0).
  - unfold aiTimeout in Hfire.
    destruct (getBestAIMove _ _ _ _) as [mv|]; [|done].
    injection Hfire as <-. destruct mv as [| |i]; try done.
    by destruct (decide _).
Qed.

(** C10: in every reachable state the AI's mark is O and no event changes
    it; when the pending AI move fires, the callback writes O into an empty
    cell of the board and sets the turn back to X. *)
Theorem reachable_ai_plays_O (g : Game) :
  reachable g →
  aiMark g = O
  ∧ (∀ g', step g g' → aiMark g' = O)
  ∧ (∀ randomIndex,
       mode g = ai → isAITurning g = true → random_ok randomIndex →
       ∃ i, i < 9
          ∧ (squares g) !! i = Some None
          ∧ aiTimeout randomIndex g
            = Some {| squares := <[i:=Some O]> (squares g); xIsNext := true;
                      mode := ai; aiMark := O; isAITurning := false |}).
Proof.
  intros Hwf%reachable_well_formed. pose proof Hwf as (_ & Hai & _).
  split; [done|]. split.
  - intros g' Hstep. by rewrite (step_aiMark g g' Hstep).
  - intros rnd Hmode Hturn Hrnd.
    destruct (aiTimeout_moves rnd g Hwf Hturn Hrnd) as (i & ? & ? & _ & Hres).
    exists i. rewrite Hres, Hai, Hmode. done.
Qed.

Lemma reachable_ai_plays_O_witness :
  let g := aiEffectStart (handleSquareClick (handleModeChange initial ai) 0) in
  reachable g
  ∧ aiMark g = O
  ∧ ∃ i, i < 9
       ∧ (squares g) !! i = Some None
       ∧ aiTimeout (λ _, 0) g
         = Some {| squares := <[i:=Some O]> (squares g); xIsNext := true;
                   mode := ai; aiMark := O; isAITurning := false |}.
Proof.
  assert (Hreach : reachable
            (aiEffectStart (handleSquareClick (handleModeChange initial ai) 0))).
  { eapply rtc_l; [apply (step_mode initial ai)|].
    eapply rtc_l; [apply (step_click _ 0); lia|].
    eapply rtc_l; [apply step_ai_start; reflexivity|]. apply rtc_refl. }
  split; [exact Hreach|].
  split; [exact (proj1 (reachable_ai_plays_O _ Hreach))|].
  apply (proj2 (proj2 (reachable_ai_plays_O _ Hreach)) (λ _, 0)).
  - reflexivity.
  - reflexivity.
  - intros n Hn. exact Hn.
Defined.

(** ** The AI does not lose *)

Lemma never_loses_S fuel (sq : Squares) xTurn :
  never_loses (S fuel) sq xTurn
  = bool_decide (winner (calculateWinner sq) ≠ Some X)
    && (if bool_decide (winner (calculateWinner sq) ≠ None) || isDraw sq
        then true
        else if xTurn then
          forallb (λ idx, never_loses fuel (array_set sq idx (Some X)) false)
                  (getAvailableMoves sq)
        else
          forallb (λ k,
                     match getBestAIMove O X (λ _, k) sq with
                     | Some (Index i) =>
                         bool_decide (sq_get sq i = None)
                         && never_loses fuel (array_set sq i (Some O)) true
                     | _ => false
                     end)
                  (oracle_range sq)).
Proof. reflexivity. Qed.

Lemma never_loses_winner fuel (sq : Squares) xTurn :
  never_loses fuel sq xTurn = true → winner (calculateWinner sq) ≠ Some X.
Proof.
  destruct fuel as [|fuel]; [done|]. rewrite never_loses_S.
  intros [H _]%andb_true_iff. by apply bool_decide_eq_true in H.
Qed.

(** The whole game tree from the empty board, X to move, passes the check. *)
Lemma never_loses_empty_board : never_loses 10 empty_board true = true.
Proof. vm_compute. reflexivity. Qed.

(** Whatever [Math.random] yields, the selector answers as it does for one
    of the constant oracles of [oracle_range]. *)
Lemma getBestAIMove_oracle (me pl : Mark) randomIndex (sq : Squares) :
  random_ok randomIndex →
  ∃ k, k ∈ oracle_range sq
     ∧ getBestAIMove me pl randomIndex sq = getBestAIMove me pl (λ _, k) sq.
Proof.
  intros Hrnd. unfold oracle_range, getBestAIMove.
  assert (Hsmall : ∀ cand : list nat, length cand = 4 →
            0 < length (filter (λ i, sq_get sq i = None) cand) →
            randomIndex (length (filter (λ i, sq_get sq i = None) cand))
            ∈ seq 0 4).
  { intros cand Hcand Hpos. apply elem_of_seq.
    pose proof (Hrnd _ Hpos).
    pose proof (length_filter (λ i, sq_get sq i = None) cand). lia. }
  case_decide; [|exists 0; split; [by left | done]].
  case_decide; [exists 0; split; [by left | done]|].
  case_decide; [eexists; split; [by apply (Hsmall [0; 2; 6; 8])| done]|].
  case_decide; [eexists; split; [by apply (Hsmall [1; 3; 5; 7])| done]|].
  exists 0. split; [by left | done].
Qed.

Lemma ai_safe_step (g g' : Game) :
  well_formed g → ai_safe g → step g g' → ai_safe g'.
Proof.
  intros Hwf Hsafe Hstep. pose proof Hwf as (Hlen & Hai & Hpending & _).
  destruct Hstep as [g idx Hidx|g|g val|g Hguard|g g' rnd Hturn Hrnd Hfire].
  - unfold handleSquareClick.
    destruct (canPlayerMove g idx) eqn:Hcan; [|done]. cbn [negb].
    intros Hmode. cbn in Hmode.
    apply canPlayerMove_true in Hcan as (Hwin & Hdraw & Hhuman & Hempty).
    destruct (Hhuman Hmode) as [_ Hx]. destruct (Hsafe Hmode) as [fuel Hnl].
    rewrite Hx in Hnl |- *. cbn [squares xIsNext negb].
    destruct fuel as [|fuel]; [done|]. rewrite never_loses_S in Hnl.
    apply andb_true_iff in Hnl as [_ Hnl].
    rewrite Hwin, Hdraw in Hnl. cbn in Hnl.
    exists fuel. apply (proj1 (forallb_forall _ _) Hnl).
    apply list_elem_of_In, elem_of_getAvailableMoves.
    apply sq_get_lookup in Hempty as [Hnone|?]; [|done].
    apply lookup_ge_None in Hnone. lia.
  - intros _. exists 10. apply never_loses_empty_board.
  - intros _. exists 10. apply never_loses_empty_board.
  - unfold aiEffectStart. by rewrite Hguard.
  - destruct (aiTimeout_moves rnd g Hwf Hturn Hrnd)
      as (i & Hi & Hcell & Hmove & Hres).
    rewrite Hres in Hfire. injection Hfire as <-.
    destruct (aiEffectGuard_true g (Hpending Hturn))
      as (Hmode & Hwin & Hdraw & Hx).
    intros _. cbn [squares xIsNext]. destruct (Hsafe Hmode) as [fuel Hnl].
    rewrite Hx in Hnl. destruct fuel as [|fuel]; [done|].
    rewrite never_loses_S in Hnl. apply andb_true_iff in Hnl as [_ Hnl].
    rewrite Hwin, Hdraw in Hnl. cbn in Hnl.
    destruct (getBestAIMove_oracle O X rnd (squares g) Hrnd) as (k & Hk & Heq).
    apply list_elem_of_In in Hk.
    pose proof (proj1 (forallb_forall _ _) Hnl k Hk) as Hbranch.
    cbv beta in Hbranch. rewrite <- Heq, Hmove in Hbranch.
    apply andb_true_iff in Hbranch as [_ Hbranch].
    rewrite array_set_in_range in Hbranch by lia. eauto.
Qed.

Lemma reachable_ai_safe (g : Game) : reachable g → ai_safe g.
Proof.
  intros Hreach. enough (well_formed g ∧ ai_safe g) by tauto.
  revert g Hreach. apply rtc_ind_r.
  - split; [apply well_formed_initial | done].
  - intros g g' _ Hstep [Hwf Hsafe].
    split; [by eapply well_formed_step | by eapply ai_safe_step].
Qed.

(** C1: in every state reachable in AI mode (every game there starts from
    the empty board, X opens, and O's moves are all chosen by
    [getBestAIMove]) the winner is not the opponent's mark X; in particular
    a finished game is a draw or a win for O. *)
Theorem ai_never_loses (g : Game) :
  reachable g →
  mode g = ai →
  winner (calculateWinner (squares g)) ≠ Some (opponent (aiMark g))
  ∧ status (squares g) ≠ Won X
  ∧ (status (squares g) ≠ Ongoing →
     status (squares g) = Won O ∨ status (squares g) = Drawn).
Proof.
  intros Hreach Hmode.
  destruct (reachable_ai_safe g Hreach Hmode) as [fuel Hnl].
  apply never_loses_winner in Hnl.
  destruct (reachable_well_formed g Hreach) as (_ & -> & _).
  split; [done|]. unfold status.
  destruct (winner (calculateWinner (squares g))) as [[|]|];
    [done | by auto |].
  split; [by destruct (isDraw _)|]. destruct (isDraw _); by auto.
Qed.

Lemma ai_never_loses_witness :
  let g := handleSquareClick (handleModeChange initial ai) 0 in
  reachable g ∧ mode g = ai
  ∧ winner (calculateWinner (squares g)) ≠ Some (opponent (aiMark g)).
Proof.
  assert (Hreach : reachable (handleSquareClick (handleModeChange initial ai) 0)).
  { eapply rtc_l; [apply (step_mode initial ai)|].
    eapply rtc_l; [apply (step_click _ 0); lia|]. apply rtc_refl. }
  split; [exact Hreach|]. split; [reflexivity|].
  exact (proj1 (ai_never_loses _ Hreach eq_refl)).
Defined.

(** ** The two-player component *)

(** [Game.jsx] ignores a click on an occupied cell and any click after a win;
    after a draw every cell is occupied. *)
Lemma simple_click_ignored (g : Simple.Game) (idx : nat) :
  sq_get (Simple.squares g) idx ≠ None
  ∨ winner (calculateWinner (Simple.squares g)) ≠ None →
  Simple.handleSquareClick g idx = g.
Proof.
  intros H. unfold Simple.handleSquareClick.
  destruct H as [H|H]; rewrite (bool_decide_eq_true_2 _ H);
    [done | by rewrite orb_true_r].
Qed.

(** * Further properties of the code *)

(** ** Array reads after a write *)

Lemma sq_get_array_set_eq (a : Squares) i v :
  sq_get (array_set a i v) i = v.
Proof.
  unfold sq_get, array_set. case_decide as Hi.
  - by rewrite list_lookup_insert_eq.
  - rewrite lookup_app_r by lia.
    rewrite lookup_app_r by (rewrite length_replicate; lia).
    rewrite length_replicate, Nat.sub_diag. done.
Qed.

Lemma sq_get_array_set_ne (a : Squares) i j v :
  i ≠ j → sq_get (array_set a i v) j = sq_get a j.
Proof.
  intros Hne. unfold sq_get, array_set. case_decide as Hi.
  - by rewrite list_lookup_insert_ne.
  - destruct (decide (j < length a)) as [Hj|Hj].
    + by rewrite (lookup_app_l a _ j Hj).
    + rewrite (proj2 (lookup_ge_None a j)) by lia.
      rewrite lookup_app_r by lia.
      destruct (decide (j - length a < i - length a)) as [Hlt|Hge].
      * rewrite lookup_app_l by (by rewrite length_replicate).
        by rewrite lookup_replicate_2.
      * rewrite lookup_app_r by (rewrite length_replicate; lia).
        rewrite length_replicate.
        destruct (j - length a - (i - length a)) as [|k] eqn:Hk; [lia|done].
Qed.

(** ** Available moves *)

(** X1: [getAvailableMoves] lists exactly the indices of the board that
    hold [null], each once and in ascending order. *)
Theorem getAvailableMoves_ascending_empty_cells (sq : Squares) :
  StronglySorted lt (getAvailableMoves sq)
  ∧ NoDup (getAvailableMoves sq)
  ∧ (∀ m, m ∈ getAvailableMoves sq ↔ m < length sq ∧ sq_get sq m = None)
  ∧ length (getAvailableMoves sq) + moveCount sq = length sq.
Proof.
  assert (Hsorted : StronglySorted lt (getAvailableMoves sq)).
  { induction sq as [|c sq IH]; [constructor|].
    rewrite getAvailableMoves_cons.
    assert (StronglySorted lt (S <$> getAvailableMoves sq)) as Htail.
    { eapply StronglySorted_fmap; [|exact IH]. intros x y. lia. }
    destruct (decide (c = None)); [|done]. cbn. constructor; [done|].
    apply Forall_fmap, Forall_forall. intros x _. cbn. lia. }
  split; [done|]. split; [|split].
  - clear -Hsorted. induction Hsorted as [|x l _ IH Hx]; constructor; [|done].
    intros Hin. pose proof (proj1 (Forall_forall _ _) Hx x Hin). lia.
  - intros m. rewrite elem_of_getAvailableMoves. split.
    + intros Hm. split; [by eapply lookup_lt_Some|]. unfold sq_get. by rewrite Hm.
    + intros [Hlt Hempty]. apply sq_get_lookup in Hempty as [Hnone|?]; [|done].
      apply lookup_ge_None in Hnone. lia.
  - pose proof (moveCount_getAvailableMoves sq). lia.
Qed.

(** ** Clicks *)

(** X2: an accepted click on a cell of the board writes the mark of the
    player to move into that cell, leaves every other cell, flips the turn,
    raises the move count by one and keeps mode, AI mark and pending flag. *)
Theorem handleSquareClick_accepted (g : Game) (idx : nat) :
  canPlayerMove g idx = true →
  idx < length (squares g) →
  let g' := handleSquareClick g idx in
  sq_get (squares g') idx = Some (if xIsNext g then X else O)
  ∧ (∀ j, j ≠ idx → sq_get (squares g') j = sq_get (squares g) j)
  ∧ length (squares g') = length (squares g)
  ∧ moveCount (squares g') = S (moveCount (squares g))
  ∧ xIsNext g' = negb (xIsNext g)
  ∧ mode g' = mode g ∧ aiMark g' = aiMark g
  ∧ isAITurning g' = isAITurning g.
Proof.
  intros Hcan Hidx g'. subst g'. unfold handleSquareClick. rewrite Hcan.
  cbn [negb squares xIsNext mode aiMark isAITurning].
  apply canPlayerMove_true in Hcan as (_ & _ & _ & Hempty).
  split; [apply sq_get_array_set_eq|].
  split; [intros j Hj; by apply sq_get_array_set_ne|].
  split; [by apply length_array_set_in_range|].
  split; [|done].
  assert ((squares g) !! idx = Some None) as Hcell.
  { apply sq_get_lookup in Hempty as [Hnone|?]; [|done].
    apply lookup_ge_None in Hnone. lia. }
  rewrite array_set_in_range by done.
  pose proof (moveCount_getAvailableMoves (squares g)) as H1.
  pose proof (moveCount_getAvailableMoves
                (<[idx:=Some (if xIsNext g then X else O)]> (squares g))) as H2.
  pose proof (length_getAvailableMoves_insert (squares g) idx
                (if xIsNext g then X else O) Hcell) as H3.
  rewrite length_insert in H2. lia.
Qed.

Lemma handleSquareClick_accepted_witness :
  let g := handleModeChange initial ai in
  let g' := handleSquareClick g 4 in
  sq_get (squares g') 4 = Some X
  ∧ moveCount (squares g') = 1
  ∧ xIsNext g' = false.
Proof.
  pose proof (handleSquareClick_accepted (handleModeChange initial ai) 4
                eq_refl) as H.
  cbn zeta in H. specialize (H ltac:(vm_compute; lia)).
  destruct H as (H1 & _ & _ & H2 & H3 & _).
  split; [exact H1|]. split; [exact H2 | exact H3].
Defined.

(** X3: the guards that [Square] and the component put in front of the
    handler never change its answer: a click routed through them, with
    either version of [Square], has the effect of [handleSquareClick]
    alone. *)
Theorem ui_click_is_handleSquareClick (g : Game) (idx : nat) :
  ui_click g idx = handleSquareClick g idx
  ∧ ui_click_plain g idx = handleSquareClick g idx.
Proof.
  unfold ui_click, ui_click_plain, handleSquareClick.
  destruct (canPlayerMove g idx) eqn:Hcan.
  - apply canPlayerMove_true in Hcan as (_ & _ & _ & Hempty).
    by rewrite decide_True.
  - split; [by case_decide | done].
Qed.

(** X4: no event overwrites or removes a mark except by clearing the whole
    board: after a step either the board is the empty one or every mark is
    where it was. *)
Theorem step_keeps_marks (g g' : Game) :
  step g g' →
  squares g' = empty_board
  ∨ ∀ j m, sq_get (squares g) j = Some m → sq_get (squares g') j = Some m.
Proof.
  intros [g0 idx _|g0|g0 val|g0 _|g0 g1 rnd _ _ Hfire]; [|by left..| |].
  - right. intros j m Hj. unfold handleSquareClick.
    destruct (canPlayerMove g0 idx) eqn:Hcan; [|done]. cbn [negb squares].
    apply canPlayerMove_true in Hcan as (_ & _ & _ & Hempty).
    rewrite sq_get_array_set_ne; [done|]. intros ->. congruence.
  - right. unfold aiEffectStart. by destruct (aiEffectGuard g0).
  - right. intros j m Hj. unfold aiTimeout in Hfire.
    destruct (getBestAIMove _ _ _ _) as [mv|]; [|done].
    injection Hfire as <-. destruct mv as [| |i]; try done.
    case_decide as Hempty; [|done]. cbn [squares].
    rewrite sq_get_array_set_ne; [done|]. intros ->. congruence.
Qed.

Lemma step_keeps_marks_witness :
  let g := handleSquareClick initial 0 in
  let g' := handleSquareClick g 1 in
  squares g' = empty_board
  ∨ ∀ j m, sq_get (squares g) j = Some m → sq_get (squares g') j = Some m.
Proof.
  apply step_keeps_marks. apply (step_click _ 1). lia.
Defined.

(** ** The pending AI move and finished games *)

Lemma status_Ongoing (sq : Squares) :
  status sq = Ongoing
  ↔ winner (calculateWinner sq) = None ∧ isDraw sq = false.
Proof.
  unfold status. destruct (winner (calculateWinner sq)).
  - split; [done | by intros [? _]].
  - destruct (isDraw sq); split; try done. by intros [_ ?].
Qed.

(** X5: in every reachable state the board has nine cells, and the flag
    that announces the AI's move is set only in AI mode, with O to move and
    the game undecided; in two-player mode it is never set. *)
Theorem reachable_pending_flag (g : Game) :
  reachable g →
  length (squares g) = 9
  ∧ (isAITurning g = true →
     mode g = ai ∧ xIsNext g = false ∧ status (squares g) = Ongoing)
  ∧ (mode g = pvp → isAITurning g = false).
Proof.
  intros (Hlen & _ & Hpending & _)%reachable_well_formed.
  split; [done|]. split.
  - intros Hturn.
    destruct (aiEffectGuard_true g (Hpending Hturn)) as (? & ? & ? & ?).
    split; [done|]. split; [done|]. by apply status_Ongoing.
  - intros Hmode. destruct (isAITurning g) eqn:Hturn; [|done].
    destruct (aiEffectGuard_true g (Hpending eq_refl)) as (? & _). congruence.
Qed.

Lemma reachable_pending_flag_witness :
  let g := aiEffectStart (handleSquareClick (handleModeChange initial ai) 0) in
  isAITurning g = true
  ∧ mode g = ai ∧ xIsNext g = false ∧ status (squares g) = Ongoing.
Proof.
  assert (Hreach : reachable
            (aiEffectStart (handleSquareClick (handleModeChange initial ai) 0))).
  { eapply rtc_l; [apply (step_mode initial ai)|].
    eapply rtc_l; [apply (step_click _ 0); lia|].
    eapply rtc_l; [apply step_ai_start; reflexivity|]. apply rtc_refl. }
  split; [reflexivity|].
  exact (proj1 (proj2 (reachable_pending_flag _ Hreach)) eq_refl).
Defined.



Lemma moveCount_zero (sq : Squares) :
  moveCount sq = 0 → sq = replicate (length sq) None.
Proof.
  induction sq as [|c sq IH]; [done|]. rewrite moveCount_cons.
  destruct c; [lia|]. cbn. intros H. f_equal. by apply IH.
Qed.

(** X7: the restart button is disabled only when pressing it would change
    nothing: in a reachable two-player state without a move the handler
    returns the state it is given. *)
Theorem restart_disabled_is_noop (g : Game) :
  reachable g →
  restartDisabled g = true →
  handleRestart g = g.
Proof.
  intros Hwf%reachable_well_formed Hdis.
  destruct Hwf as (Hlen & _ & Hpending & Hcount).
  apply andb_true_iff in Hdis as [Hzero%bool_decide_eq_true Hmode%bool_decide_eq_true].
  apply moveCount_zero in Hzero. rewrite Hlen in Hzero.
  destruct g as [sq x md mk pending]. cbn in *. subst sq md.
  unfold handleRestart. cbn. f_equal.
  - destruct x; [done|]. vm_compute in Hcount. lia.
  - destruct pending; [|done].
    destruct (aiEffectGuard_true _ (Hpending eq_refl)) as (? & _). done.
Qed.

Lemma restart_disabled_is_noop_witness :
  let g := handleModeChange (handleModeChange initial ai) pvp in
  restartDisabled g = true ∧ handleRestart g = g.
Proof.
  split; [reflexivity|].
  apply restart_disabled_is_noop; [|reflexivity].
  eapply rtc_l; [apply (step_mode initial ai)|].
  eapply rtc_l; [apply (step_mode _ pvp)|]. apply rtc_refl.
Defined.

(** ** The two components side by side *)

(** X8: in two-player mode the component with the AI handles clicks and
    restarts as [Game.jsx] does: on a board of nine cells, seen through its
    two fields, both components compute the same next state. *)
Theorem pvp_mode_matches_simple_game (g : Game) (idx : nat) :
  mode g = pvp →
  length (squares g) = 9 →
  idx < 9 →
  pvp_view (handleSquareClick g idx)
  = Simple.handleSquareClick (pvp_view g) idx
  ∧ pvp_view (handleRestart g) = Simple.handleRestart (pvp_view g).
Proof.
  intros Hmode Hlen Hidx. split; [|done].
  unfold handleSquareClick, canPlayerMove, Simple.handleSquareClick, pvp_view.
  cbn [Simple.squares Simple.xIsNext].
  rewrite (bool_decide_eq_false_2 (mode g = ai)) by congruence. cbn [andb].
  destruct (decide (winner (calculateWinner (squares g)) = None)) as [Hw|Hw].
  - rewrite (bool_decide_eq_false_2 (winner _ ≠ None)) by auto.
    rewrite orb_false_r. cbn [orb].
    destruct (isDraw (squares g)) eqn:Hdraw.
    + cbn [negb]. rewrite bool_decide_eq_true_2; [done|].
      unfold isDraw in Hdraw.
      apply andb_true_iff in Hdraw as [_ Hfull%bool_decide_eq_true].
      rewrite <- Hlen in Hfull. apply moveCount_full in Hfull.
      intros Hempty. apply sq_get_lookup in Hempty as [Hnone|Hcell].
      * apply lookup_ge_None in Hnone. lia.
      * apply list_elem_of_lookup_2 in Hcell.
        by apply (proj1 (Forall_forall _ _) Hfull) in Hcell.
    + destruct (decide (sq_get (squares g) idx = None)) as [He|He].
      * rewrite (bool_decide_eq_true_2 _ He).
        rewrite (bool_decide_eq_false_2 (sq_get _ _ ≠ None)) by auto. done.
      * rewrite (bool_decide_eq_false_2 _ He).
        rewrite (bool_decide_eq_true_2 _ He). done.
  - rewrite (bool_decide_eq_true_2 _ Hw). rewrite orb_true_r. done.
Qed.

Lemma pvp_mode_matches_simple_game_witness :
  pvp_view (handleSquareClick initial 4)
  = Simple.handleSquareClick (pvp_view initial) 4.
Proof.
  refine (proj1 (pvp_mode_matches_simple_game initial 4 _ _ _));
    [reflexivity | reflexivity | lia].
Defined.

(** X9: in every state that [Game.jsx] can reach the board has nine cells
    and the marks alternate starting with X: as many X as O when X is to
    move, one more X when O is to move. *)
Theorem simple_game_marks_alternate (h : Simple.Game) :
  simple_reachable h →
  length (Simple.squares h) = 9
  ∧ count_mark X (Simple.squares h)
    = count_mark O (Simple.squares h) + (if Simple.xIsNext h then 0 else 1).
Proof.
  revert h. apply rtc_ind_r; [done|].
  intros h h' _ Hstep [Hlen Hcount].
  destruct Hstep as [h idx Hidx|h]; [|done].
  unfold Simple.handleSquareClick.
  destruct (bool_decide (sq_get (Simple.squares h) idx ≠ None)) eqn:Hocc;
    [done|].
  destruct (bool_decide (winner (calculateWinner (Simple.squares h)) ≠ None));
    [done|].
  cbn [orb Simple.squares Simple.xIsNext].
  apply bool_decide_eq_false in Hocc.
  assert ((Simple.squares h) !! idx = Some None) as Hcell.
  { assert (sq_get (Simple.squares h) idx = None) as Hempty
      by (by destruct (sq_get (Simple.squares h) idx); [destruct Hocc|]).
    apply sq_get_lookup in Hempty as [Hnone|?]; [|done].
    apply lookup_ge_None in Hnone. lia. }
  rewrite array_set_in_range by lia. split; [by rewrite length_insert|].
  destruct (count_mark_insert_X (Simple.squares h) idx Hcell) as [HX1 HX2].
  destruct (count_mark_insert_O (Simple.squares h) idx Hcell) as [HO1 HO2].
  destruct (Simple.xIsNext h); cbn [negb]; lia.
Qed.

Lemma simple_game_marks_alternate_witness :
  let h := Simple.handleSquareClick simple_initial 4 in
  length (Simple.squares h) = 9
  ∧ count_mark X (Simple.squares h)
    = count_mark O (Simple.squares h) + (if Simple.xIsNext h then 0 else 1).
Proof.
  apply simple_game_marks_alternate.
  eapply rtc_l; [apply (simple_step_click _ 4); lia|]. apply rtc_refl.
Defined.

(** ** One winner at most *)

(** A line completed by writing [mk] on a board without a winner holds
    [mk]. *)
Lemma completed_line_has_new_mark (sq : Squares) i (mk m : Mark) (l : Line) :
  winner (calculateWinner sq) = None →
  l ∈ lines →
  three_in_a_row (array_set sq i (Some mk)) l m →
  m = mk.
Proof.
  intros Hwin Hl (Ha & Hb & Hc).
  destruct (decide (m = mk)) as [|Hne]; [done|].
  assert (Hold : ∀ a, sq_get (array_set sq i (Some mk)) a = Some m →
                      sq_get sq a = Some m).
  { intros a Hcell. destruct (decide (i = a)) as [->|Hia].
    - rewrite sq_get_array_set_eq in Hcell. congruence.
    - by rewrite sq_get_array_set_ne in Hcell. }
  assert (winner (calculateWinner sq) ≠ None) as Hwon; [|done].
  apply winner_iff_row. exists l, m. split; [done|].
  split; [by apply Hold|]. split; by apply Hold.
Qed.

Lemma empty_board_no_row (l : Line) (m : Mark) :
  ¬ three_in_a_row empty_board l m.
Proof.
  intros (Ha & _). unfold sq_get, empty_board in Ha.
  destruct (replicate 9 None !! l.1.1) as [c|] eqn:Hc; [|done].
  apply lookup_replicate in Hc as [-> _]. done.
Qed.

(** X10: on every reachable board all complete lines hold the same mark,
    so the order in which [calculateWinner] tries the lines does not
    decide who wins. *)
Theorem reachable_single_winner (g : Game) :
  reachable g →
  ∀ l l' m m',
    l ∈ lines → l' ∈ lines →
    three_in_a_row (squares g) l m →
    three_in_a_row (squares g) l' m' →
    m = m'.
Proof.
  intros Hreach.
  enough (well_formed g
          ∧ ∃ mk, ∀ l m, l ∈ lines → three_in_a_row (squares g) l m → m = mk)
    as (_ & mk & Hmk).
  { intros l l' m m' Hl Hl' Hrow Hrow'.
    by rewrite (Hmk l m Hl Hrow), (Hmk l' m' Hl' Hrow'). }
  revert g Hreach. apply rtc_ind_r.
  { split; [apply well_formed_initial|]. exists X. intros l m _ Hrow.
    by apply empty_board_no_row in Hrow. }
  intros g g' _ Hstep (Hwf & mk & Hmk).
  split; [by eapply well_formed_step|].
  destruct Hwf as (_ & _ & Hpending & _).
  destruct Hstep as [g idx _|g|g val|g _|g g' rnd Hturn _ Hfire].
  - unfold handleSquareClick.
    destruct (canPlayerMove g idx) eqn:Hcan; [|by exists mk].
    apply canPlayerMove_true in Hcan as (Hwin & _).
    cbn [negb squares]. eexists. intros l m Hl Hrow.
    by eapply completed_line_has_new_mark.
  - exists X. intros l m _ Hrow. by apply empty_board_no_row in Hrow.
  - exists X. intros l m _ Hrow. by apply empty_board_no_row in Hrow.
  - unfold aiEffectStart. destruct (aiEffectGuard g); by exists mk.
  - destruct (aiEffectGuard_true g (Hpending Hturn)) as (_ & Hwin & _).
    unfold aiTimeout in Hfire.
    destruct (getBestAIMove _ _ _ _) as [mv|]; [|done].
    injection Hfire as <-. destruct mv as [| |i]; try by exists mk.
    case_decide; [|by exists mk]. cbn [squares].
    exists O. intros l m Hl Hrow. by eapply completed_line_has_new_mark.
Qed.

Lemma reachable_single_winner_witness :
  let played :=
    foldl handleSquareClick initial [1; 4; 2; 5; 3; 7; 6; 8; 0] in
  three_in_a_row (squares played) (0, 1, 2) X
  ∧ three_in_a_row (squares played) (0, 3, 6) X
  ∧ X = X.
Proof.
  intros played.
  assert (Hreach : reachable played).
  { do 9 (eapply rtc_r; [|apply step_click; lia]). apply rtc_refl. }
  assert (Hrow : three_in_a_row (squares played) (0, 1, 2) X)
    by (repeat split).
  assert (Hcol : three_in_a_row (squares played) (0, 3, 6) X)
    by (repeat split).
  split; [exact Hrow|]. split; [exact Hcol|].
  refine (reachable_single_winner played Hreach (0, 1, 2) (0, 3, 6) X X
            _ _ Hrow Hcol).
  - by left.
  - do 3 right. by left.
Defined.

(** ** What the user is shown *)

(** X11: in AI mode the status bar never reads "X wins!" nor "O wins!": a
    reachable game there is announced as won only by "AI".  In two-player
    mode the winner's own mark is announced. *)
Theorem statusBar_announces_winner (g : Game) :
  reachable g →
  (mode g = ai →
   statusBar g ≠ WinsText "X" ∧ statusBar g ≠ WinsText "O"
   ∧ (∀ w, winner (calculateWinner (squares g)) = Some w →
           w = O ∧ statusBar g = WinsText "AI"))
  ∧ (mode g = pvp →
     ∀ w, winner (calculateWinner (squares g)) = Some w →
          statusBar g = WinsText (mark_name w)).
Proof.
  intros Hreach. pose proof (reachable_well_formed g Hreach) as (_ & Hai & _).
  split.
  - intros Hmode. destruct (reachable_ai_safe g Hreach Hmode) as [fuel Hnl].
    apply never_loses_winner in Hnl. unfold statusBar. rewrite Hai.
    rewrite (bool_decide_eq_true_2 _ Hmode).
    destruct (winner (calculateWinner (squares g))) as [[|]|]; [done| |].
    + cbn. split; [done|]. split; [done|]. intros w Hw.
      injection Hw as <-. done.
    + split; [by destruct (isDraw _)|]. split; [by destruct (isDraw _)|done].
  - intros Hmode w Hw. unfold statusBar. rewrite Hw.
    rewrite (bool_decide_eq_false_2 (mode g = ai)) by congruence.
    by rewrite andb_false_r.
Qed.

Lemma statusBar_announces_winner_witness :
  let won := handleSquareClick (handleSquareClick (handleSquareClick
               (handleSquareClick (handleSquareClick initial 0) 3) 1) 4) 2 in
  statusBar won = WinsText (mark_name X).
Proof.
  intros won.
  assert (Hreach : reachable won).
  { do 5 (eapply rtc_r; [|apply step_click; lia]). apply rtc_refl. }
  exact (proj2 (statusBar_announces_winner won Hreach) eq_refl X eq_refl).
Defined.

(** X12: [Board] highlights no square while there is no winner; when there
    is one it highlights exactly three of the nine squares it renders, and
    each of them shows the winner's mark. *)
Theorem highlight_is_winning_line (sq : Squares) :
  let r := calculateWinner sq in
  let lit := filter (λ idx, highlight (line r) idx = true) board_indices in
  (winner r = None → lit = [])
  ∧ (∀ m, winner r = Some m →
          length lit = 3 ∧ ∀ idx, idx ∈ lit → sq_get sq idx = Some m).
Proof.
  intros r lit. subst r lit. unfold calculateWinner.
  destruct (scan_lines_shape sq lines) as [Heq|(m & l & Heq)]; rewrite Heq.
  - split; [done|]. intros m Hm. done.
  - split; [done|]. intros m' [= <-].
    apply scan_lines_Some in Heq as (before & after & Hl & _ & Hrow).
    cbn [line].
    assert (l ∈ lines) as Hin by (rewrite Hl; apply elem_of_app; right; by left).
    clear Hl. destruct Hrow as (Ha & Hb & Hc).
    repeat (apply elem_of_cons in Hin as [->|Hin]);
      [..|by apply elem_of_nil in Hin];
      (split; [reflexivity|]); cbn in Ha, Hb, Hc;
      intros idx Hidx; vm_compute in Hidx;
      repeat (apply elem_of_cons in Hidx as [->|Hidx]); try done;
      by apply elem_of_nil in Hidx.
Qed.

(** ** What the search computes *)

Section search_facts.
Variables aiMark playerMark : Mark.

Lemma search_loop_snoc isMaximizing child moves mv init :
  search_loop isMaximizing child (moves ++ [mv]) init
  = match search_loop isMaximizing child moves init with
    | None => None
    | Some best =>
        match child mv with
        | None => None
        | Some r => Some (keep_best isMaximizing best mv r)
        end
    end.
Proof. unfold search_loop. by rewrite foldl_snoc. Qed.

(** The loop returns the first move, in the order of [moves], whose score
    is the best: moves before it score strictly worse, moves after it no
    better. *)
Lemma search_loop_first_best isMaximizing child moves :
  moves ≠ [] →
  (∀ mv, mv ∈ moves → ∃ r z, child mv = Some r ∧ score r = Fin z) →
  ∃ z m before after r,
    search_loop isMaximizing child moves
      (if isMaximizing then NegInfinity else PosInfinity, Null)
    = Some (Fin z, Index m)
    ∧ moves = before ++ m :: after
    ∧ child m = Some r ∧ score r = Fin z
    ∧ (∀ m' r' z', m' ∈ before → child m' = Some r' → score r' = Fin z' →
                   beats isMaximizing true z z')
    ∧ (∀ m' r' z', m' ∈ after → child m' = Some r' → score r' = Fin z' →
                   beats isMaximizing false z z').
Proof.
  induction moves as [|mv moves IH] using rev_ind; [done|].
  intros _ Hchild.
  destruct (Hchild mv) as (rv & zv & Hrv & Hzv);
    [apply elem_of_app; right; by left|].
  rewrite search_loop_snoc, Hrv.
  destruct moves as [|m0 moves0] eqn:Hmoves.
  { exists zv, mv, [], [], rv. cbn. unfold keep_best. rewrite Hzv.
    split; [by destruct isMaximizing|]. split; [done|]. split; [done|].
    split; [done|]. split; intros ? ? ? []%elem_of_nil. }
  assert (Hne : moves ≠ []) by (by rewrite Hmoves).
  rewrite <- Hmoves in *. clear Hmoves.
  destruct IH as (z & m & before & after & r & -> & Heq & Hr & Hz & Hb & Ha).
  { done. }
  { intros mv' ?. apply Hchild, elem_of_app. by left. }
  unfold keep_best. cbn [fst]. rewrite Hzv.
  assert (Hcase : (if isMaximizing then score_lt (Fin z) (Fin zv)
                   else score_lt (Fin zv) (Fin z)) = true
                  ∨ (if isMaximizing then score_lt (Fin z) (Fin zv)
                     else score_lt (Fin zv) (Fin z)) = false).
  { destruct isMaximizing;
      match goal with |- context [score_lt ?a ?b] =>
        destruct (score_lt a b); auto end. }
  destruct Hcase as [Hbetter|Hkeep].
  - exists zv, mv, moves, [], rv.
    split; [destruct isMaximizing; by rewrite Hbetter|].
    split; [done|]. split; [done|]. split; [done|].
    split; [|intros ? ? ? []%elem_of_nil].
    intros m' r' z' Hm' Hr' Hz'. rewrite Heq in Hm'.
    assert (beats isMaximizing true zv z) as Hzv'.
    { destruct isMaximizing; cbn in Hbetter |- *;
        by apply bool_decide_eq_true in Hbetter. }
    apply elem_of_app in Hm' as [Hm'|Hm'].
    + specialize (Hb m' r' z' Hm' Hr' Hz').
      destruct isMaximizing; cbn in *; lia.
    + apply elem_of_cons in Hm' as [->|Hm'].
      * rewrite Hr in Hr'. injection Hr' as <-. rewrite Hz in Hz'.
        injection Hz' as <-. done.
      * specialize (Ha m' r' z' Hm' Hr' Hz').
        destruct isMaximizing; cbn in *; lia.
  - exists z, m, before, (after ++ [mv]), r.
    split; [destruct isMaximizing; by rewrite Hkeep|].
    split; [by rewrite Heq, <- app_assoc|].
    split; [done|]. split; [done|]. split; [done|].
    intros m' r' z' Hm' Hr' Hz'. apply elem_of_app in Hm' as [Hm'|Hm'].
    + by eapply Ha.
    + apply list_elem_of_singleton in Hm' as ->.
      rewrite Hrv in Hr'. injection Hr' as <-. rewrite Hzv in Hz'.
      injection Hz' as <-.
      destruct isMaximizing; cbn in Hkeep |- *;
        apply bool_decide_eq_false in Hkeep; lia.
Qed.

(** A loop that ends with a result has had a result from every recursive
    call. *)
Lemma search_loop_children isMaximizing child moves init best :
  search_loop isMaximizing child moves init = Some best →
  ∀ mv, mv ∈ moves → ∃ r, child mv = Some r.
Proof.
  revert init. induction moves as [|m moves IH]; intros init Hloop mv Hmv.
  { by apply elem_of_nil in Hmv. }
  destruct (child m) as [r|] eqn:Hm.
  - rewrite (search_loop_cons _ _ _ _ _ _ Hm) in Hloop.
    apply elem_of_cons in Hmv as [->|Hmv]; [by eauto | by eapply IH].
  - exfalso. unfold search_loop in Hloop. cbn [foldl] in Hloop.
    rewrite Hm in Hloop. clear -Hloop.
    induction moves as [|x moves IHm]; [done | exact (IHm Hloop)].
Qed.

(** The scores of [minimax] lie between -1 and 1. *)
Lemma minimax_score_bounds fuel board isMaximizing r :
  minimax aiMark playerMark fuel board isMaximizing = Some r →
  ∃ z, score r = Fin z ∧ (-1 ≤ z ≤ 1)%Z.
Proof.
  revert board isMaximizing r.
  induction fuel as [|fuel IH]; intros board isMaximizing r; [done|].
  rewrite minimax_S.
  destruct (decide (winner (calculateWinner board) = Some aiMark));
    [intros [= <-]; exists 1%Z; split; [done|lia]|].
  destruct (decide (winner (calculateWinner board) = Some playerMark));
    [intros [= <-]; exists (-1)%Z; split; [done|lia]|].
  destruct (forallb _ board) eqn:Hfull;
    [intros [= <-]; exists 0%Z; split; [done|lia]|].
  assert (Hmoves : getAvailableMoves board ≠ []).
  { intros Hnil. apply every_filled_moves in Hnil. congruence. }
  destruct (search_loop _ _ _ _) as [best|] eqn:Hloop; [|done].
  intros [= <-]. cbn [score].
  destruct (search_loop_first_best isMaximizing
              (λ mv, minimax aiMark playerMark fuel
                       (array_set board mv
                          (Some (if isMaximizing then aiMark else playerMark)))
                       (negb isMaximizing))
              (getAvailableMoves board) Hmoves)
    as (z & m & _ & _ & rm & Heq & _ & Hrm & Hz & _).
  { intros mv Hmv. cbv beta.
    destruct (search_loop_children _ _ _ _ _ Hloop mv Hmv) as [r' Hr'].
    cbv beta in Hr'. destruct (IH _ _ _ Hr') as (z' & ? & _). eauto. }
  rewrite Hloop in Heq. injection Heq as ->.
  destruct (IH _ _ _ Hrm) as (z' & Hz' & Hrange).
  rewrite Hz in Hz'. injection Hz' as <-. eauto.
Qed.
End search_facts.

(** X13: on a board that is not terminal, [minimax] with fuel for every
    empty cell returns the first available move, in ascending order, whose
    continuation has the best score for the player to move, together with
    that score: earlier moves score strictly worse, later moves no better. *)
Theorem minimax_picks_first_best (aiMark playerMark : Mark)
    (fuel : nat) (board : Squares) (isMaximizing : bool) :
  ¬ terminal aiMark playerMark board →
  length (getAvailableMoves board) ≤ fuel →
  let child mv :=
    score <$> minimax aiMark playerMark fuel
                (array_set board mv
                   (Some (if isMaximizing then aiMark else playerMark)))
                (negb isMaximizing) in
  ∃ z m before after,
    minimax aiMark playerMark (S fuel) board isMaximizing
    = Some {| score := Fin z; move := Index m |}
    ∧ getAvailableMoves board = before ++ m :: after
    ∧ child m = Some (Fin z)
    ∧ (∀ m', m' ∈ before →
             ∃ z', child m' = Some (Fin z') ∧ beats isMaximizing true z z')
    ∧ (∀ m', m' ∈ after →
             ∃ z', child m' = Some (Fin z') ∧ beats isMaximizing false z z').
Proof.
  intros Hterm Hfuel child. subst child.
  assert (Hmoves : getAvailableMoves board ≠ []).
  { intros Hnil. apply Hterm. unfold terminal. auto. }
  assert (Hchild : ∀ mv, mv ∈ getAvailableMoves board →
    ∃ r z, minimax aiMark playerMark fuel
             (array_set board mv
                (Some (if isMaximizing then aiMark else playerMark)))
             (negb isMaximizing) = Some r ∧ score r = Fin z).
  { intros mv Hmv. pose proof (getAvailableMoves_lt _ _ Hmv) as Hlt.
    apply elem_of_getAvailableMoves in Hmv.
    rewrite array_set_in_range by done.
    edestruct (minimax_returns aiMark playerMark fuel
                 (<[mv:=Some (if isMaximizing then aiMark else playerMark)]>
                    board) (negb isMaximizing)) as (r & z & Hr & Hz & _);
      [|by eauto].
    pose proof (length_getAvailableMoves_insert board mv
                  (if isMaximizing then aiMark else playerMark) Hmv). lia. }
  destruct (search_loop_first_best isMaximizing _ _ Hmoves Hchild)
    as (z & m & before & after & r & Hloop & Heq & Hr & Hz & Hb & Ha).
  exists z, m, before, after.
  split.
  { rewrite minimax_S.
    rewrite decide_False by (intros ?; apply Hterm; unfold terminal; auto).
    rewrite decide_False by (intros ?; apply Hterm; unfold terminal; auto).
    destruct (forallb _ board) eqn:Hfull;
      [by apply every_filled_moves in Hfull|].
    by rewrite Hloop. }
  split; [done|]. split; [by rewrite Hr; cbn; rewrite Hz|].
  split.
  - intros m' Hm'. destruct (Hchild m') as (r' & z' & Hr' & Hz').
    { rewrite Heq. apply elem_of_app. by left. }
    exists z'. rewrite Hr'. cbn. rewrite Hz'. split; [done|]. by eapply Hb.
  - intros m' Hm'. destruct (Hchild m') as (r' & z' & Hr' & Hz').
    { rewrite Heq. apply elem_of_app. right. by right. }
    exists z'. rewrite Hr'. cbn. rewrite Hz'. split; [done|]. by eapply Ha.
Qed.

Lemma minimax_picks_first_best_witness :
  let board := [Some X; Some X; None; Some O; Some O; None; None; None; None] in
  ∃ z m before after,
    minimax O X 6 board true = Some {| score := Fin z; move := Index m |}
    ∧ getAvailableMoves board = before ++ m :: after
    ∧ score <$> minimax O X 5 (array_set board m (Some O)) false
      = Some (Fin z).
Proof.
  destruct (minimax_picks_first_best O X 5
              [Some X; Some X; None; Some O; Some O; None; None; None; None]
              true) as (z & m & before & after & H1 & H2 & H3 & _).
  - intros [H|[H|H]]; vm_compute in H; discriminate H.
  - vm_compute. lia.
  - exists z, m, before, after. split; [exact H1|]. split; [exact H2|exact H3].
Defined.

(** X14: with more fuel than empty cells [minimax] returns a score, and the
    score is -1, 0 or 1: it is 1 on a board won by the AI's mark, -1 on a
    board won by the other mark and 0 on a full board without winner. *)
Theorem minimax_scores (aiMark playerMark : Mark)
    (fuel : nat) (board : Squares) (isMaximizing : bool) :
  length (getAvailableMoves board) < fuel →
  ∃ z, score <$> minimax aiMark playerMark fuel board isMaximizing
       = Some (Fin z)
     ∧ (-1 ≤ z ≤ 1)%Z
     ∧ (winner (calculateWinner board) = Some aiMark → z = 1%Z)
     ∧ (winner (calculateWinner board) ≠ Some aiMark →
        winner (calculateWinner board) = Some playerMark → z = (-1)%Z)
     ∧ (winner (calculateWinner board) ≠ Some aiMark →
        winner (calculateWinner board) ≠ Some playerMark →
        getAvailableMoves board = [] → z = 0%Z).
Proof.
  intros Hfuel.
  destruct (minimax_returns aiMark playerMark fuel board isMaximizing Hfuel)
    as (r & z & Hr & Hz & _).
  destruct (minimax_score_bounds aiMark playerMark _ _ _ _ Hr)
    as (z' & Hz' & Hrange).
  rewrite Hz in Hz'. injection Hz' as <-.
  exists z. rewrite Hr. cbn. rewrite Hz. split; [done|]. split; [done|].
  destruct fuel as [|fuel]; [lia|]. rewrite minimax_S in Hr.
  split; [|split].
  - intros Ha. rewrite (decide_True _ _ Ha) in Hr. injection Hr as <-.
    cbn in Hz. by injection Hz.
  - intros Ha Hp. rewrite (decide_False _ _ Ha), (decide_True _ _ Hp) in Hr.
    injection Hr as <-. cbn in Hz. by injection Hz.
  - intros Ha Hp Hfull.
    rewrite (decide_False _ _ Ha), (decide_False _ _ Hp) in Hr.
    apply every_filled_moves in Hfull. rewrite Hfull in Hr.
    injection Hr as <-. cbn in Hz. by injection Hz.
Qed.

Lemma minimax_scores_witness :
  ∃ z, score <$> minimax O X 1
                   [Some X; Some O; Some X; Some O; Some X; Some O;
                    Some O; Some X; Some O] true
       = Some (Fin z)
     ∧ (-1 ≤ z ≤ 1)%Z.
Proof.
  destruct (minimax_scores O X 1
              [Some X; Some O; Some X; Some O; Some X; Some O;
               Some O; Some X; Some O] true) as (z & H1 & H2 & _).
  - vm_compute. lia.
  - exists z. split; [exact H1 | exact H2].
Defined.

(** X15: a player who can complete a line at once is credited with the
    win: if some available move of the player to move makes that player the
    winner, the score of the position is 1 when the AI moves and -1 when
    the opponent moves. *)
Theorem minimax_sees_immediate_win (aiMark playerMark : Mark)
    (fuel : nat) (board : Squares) (isMaximizing : bool) (mv : nat) :
  aiMark ≠ playerMark →
  ¬ terminal aiMark playerMark board →
  length (getAvailableMoves board) ≤ fuel →
  mv ∈ getAvailableMoves board →
  winner (calculateWinner
            (array_set board mv
               (Some (if isMaximizing then aiMark else playerMark))))
  = Some (if isMaximizing then aiMark else playerMark) →
  score <$> minimax aiMark playerMark (S fuel) board isMaximizing
  = Some (Fin (if isMaximizing then 1 else -1)).
Proof.
  intros Hne Hterm Hfuel Hmv Hwin.
  assert (Hmoves : getAvailableMoves board ≠ []).
  { intros Hnil. rewrite Hnil in Hmv. by apply elem_of_nil in Hmv. }
  assert (Hchild : ∀ mv', mv' ∈ getAvailableMoves board →
    ∃ r z, minimax aiMark playerMark fuel
             (array_set board mv'
                (Some (if isMaximizing then aiMark else playerMark)))
             (negb isMaximizing) = Some r ∧ score r = Fin z).
  { intros mv' Hmv'. pose proof (getAvailableMoves_lt _ _ Hmv') as Hlt.
    apply elem_of_getAvailableMoves in Hmv'.
    rewrite array_set_in_range by done.
    edestruct (minimax_returns aiMark playerMark fuel
                 (<[mv':=Some (if isMaximizing then aiMark else playerMark)]>
                    board) (negb isMaximizing)) as (r & z & Hr & Hz & _);
      [|by eauto].
    pose proof (length_getAvailableMoves_insert board mv'
                  (if isMaximizing then aiMark else playerMark) Hmv'). lia. }
  destruct (search_loop_first_best isMaximizing _ _ Hmoves Hchild)
    as (z & m & before & after & r & Hloop & Heq & Hr & Hz & Hb & Ha).
  destruct (minimax_score_bounds aiMark playerMark _ _ _ _ Hr)
    as (z0 & Hz0 & Hrange).
  rewrite Hz in Hz0. injection Hz0 as <-.
  assert (Hwinning :
    minimax aiMark playerMark fuel
      (array_set board mv (Some (if isMaximizing then aiMark else playerMark)))
      (negb isMaximizing)
    = Some {| score := Fin (if isMaximizing then 1 else -1);
              move := Undefined |}).
  { destruct fuel as [|fuel].
    { destruct (getAvailableMoves board); [done | cbn in Hfuel; lia]. }
    rewrite minimax_S, Hwin. destruct isMaximizing.
    - by rewrite decide_True.
    - rewrite decide_False by congruence. by rewrite decide_True. }
  rewrite minimax_S.
  rewrite decide_False by (intros ?; apply Hterm; unfold terminal; auto).
  rewrite decide_False by (intros ?; apply Hterm; unfold terminal; auto).
  destruct (forallb _ board) eqn:Hfull;
    [by apply every_filled_moves in Hfull|].
  rewrite Hloop. cbn. do 2 f_equal.
  rewrite Heq in Hmv. apply elem_of_app in Hmv as [Hmv|Hmv].
  - specialize (Hb mv _ _ Hmv Hwinning eq_refl).
    destruct isMaximizing; cbn in Hb; lia.
  - apply elem_of_cons in Hmv as [->|Hmv].
    + rewrite Hwinning in Hr. injection Hr as <-. cbn in Hz.
      by injection Hz.
    + specialize (Ha mv _ _ Hmv Hwinning eq_refl).
      destruct isMaximizing; cbn in Ha; lia.
Qed.

Lemma minimax_sees_immediate_win_witness :
  score <$> minimax O X 6
              [Some X; Some X; None; Some O; Some O; None; None; None; None]
              true
  = Some (Fin 1).
Proof.
  refine (minimax_sees_immediate_win O X 5
            [Some X; Some X; None; Some O; Some O; None; None; None; None]
            true 5 _ _ _ _ _).
  - discriminate.
  - intros [H|[H|H]]; vm_compute in H; discriminate H.
  - vm_compute. lia.
  - vm_compute. do 1 right. left.
  - reflexivity.
Defined.

(** X16: whatever the marks and the random number, [getBestAIMove] never
    returns [null]; it returns [undefined] exactly when fewer than seven
    cells are empty and the board is won or full; and an index it returns
    is that of a cell holding no mark. *)
Theorem getBestAIMove_result (aiMark playerMark : Mark)
    (randomIndex : nat → nat) (sq : Squares) :
  random_ok randomIndex →
  (getBestAIMove aiMark playerMark randomIndex sq = Some Undefined
   ↔ length (getAvailableMoves sq) < 7 ∧ terminal aiMark playerMark sq)
  ∧ getBestAIMove aiMark playerMark randomIndex sq ≠ Some Null
  ∧ (∀ m, getBestAIMove aiMark playerMark randomIndex sq = Some (Index m) →
          sq_get sq m = None).
Proof.
  intros Hrnd.
  assert (Hpick : ∀ cand : list nat,
    0 < length (filter (λ i, sq_get sq i = None) cand) →
    ∃ c, index_at (filter (λ i, sq_get sq i = None) cand)
           (randomIndex (length (filter (λ i, sq_get sq i = None) cand)))
         = Index c ∧ sq_get sq c = None).
  { intros cand Hpos. unfold index_at.
    destruct (lookup_lt_is_Some_2 _ _ (Hrnd _ Hpos)) as [c Hc]. rewrite Hc.
    apply list_elem_of_lookup_2, list_elem_of_filter in Hc as [? _]. eauto. }
  assert (Hopening : 7 ≤ length (getAvailableMoves sq) →
    ∃ c, getBestAIMove aiMark playerMark randomIndex sq = Some (Index c)
       ∧ sq_get sq c = None).
  { intros He. unfold getBestAIMove. rewrite (decide_True _ _ He).
    case_decide; [by eauto|].
    case_decide; [destruct (Hpick [0; 2; 6; 8]) as (c & -> & ?); by eauto|].
    case_decide; [destruct (Hpick [1; 3; 5; 7]) as (c & -> & ?); by eauto|].
    destruct (getAvailableMoves sq) as [|c l] eqn:Hav; [cbn in He; lia|].
    exists c. split; [done|]. apply getAvailableMoves_empty.
    rewrite Hav. by left. }
  assert (Hsearch : length (getAvailableMoves sq) < 7 →
    (terminal aiMark playerMark sq
     ∧ getBestAIMove aiMark playerMark randomIndex sq = Some Undefined)
    ∨ (¬ terminal aiMark playerMark sq
       ∧ ∃ c, getBestAIMove aiMark playerMark randomIndex sq = Some (Index c)
            ∧ sq_get sq c = None)).
  { intros He. unfold getBestAIMove. rewrite decide_False by lia.
    destruct (minimax_returns aiMark playerMark (S (length sq)) sq true)
      as (r & z & -> & _ & Hyes & Hno).
    { pose proof (length_getAvailableMoves_le sq). lia. }
    cbn.
    assert (terminal aiMark playerMark sq ∨ ¬ terminal aiMark playerMark sq)
      as [Ht|Ht].
    { unfold terminal.
      destruct (decide (winner (calculateWinner sq) = Some aiMark)); [by auto|].
      destruct (decide (winner (calculateWinner sq) = Some playerMark));
        [by auto|].
      destruct (decide (getAvailableMoves sq = [])); [by auto|].
      right. intros [?|[?|?]]; done. }
    - left. by rewrite (Hyes Ht).
    - right. split; [done|]. destruct (Hno Ht) as (c & Hc & ->).
      exists c. split; [done|]. by apply getAvailableMoves_empty. }
  destruct (decide (7 ≤ length (getAvailableMoves sq))) as [He|He].
  - destruct (Hopening He) as (c & Hres & Hc). rewrite Hres.
    split; [split; [done | lia]|]. split; [done|].
    intros m Hm. by injection Hm as <-.
  - destruct Hsearch as [[Ht Hres]|(Ht & c & Hres & Hc)]; [lia| |];
      rewrite Hres.
    + split; [split; [intros _; split; [lia|done] | done]|].
      split; done.
    + split; [split; [done | by intros [_ ?]]|]. split; [done|].
      intros m Hm. by injection Hm as <-.
Qed.

Lemma getBestAIMove_result_witness :
  getBestAIMove O X (λ _, 0)
    [Some X; Some X; Some X; Some O; Some O; None; None; None; None]
  ≠ Some Null.
Proof.
  refine (proj1 (proj2 (getBestAIMove_result O X (λ _, 0)
    [Some X; Some X; Some X; Some O; Some O; None; None; None; None] _))).
  intros n Hn. exact Hn.
Defined.
